(** * Mesh-tensor annotation helpers of tilelang, embedded in Rocq

    Source: [src/tilelang/language/annotate_mesh_tensor.py].

    [mesh_tensor_functions] builds a closure over two variables, the mesh
    shape [_mesh_shape] and the registry [_mesh_tensor_info], and returns
    three functions over them.  The embedding passes the closure variables
    as a record and the Python object store as an explicit heap, because
    the source copies caller-owned dictionaries with [deepcopy].

    What the model covers.  Python values are [None], integers, strings,
    tuples, lists and dictionaries with string or integer keys; a buffer
    has static integer extents; block coordinates are tuples of integers,
    as the signature of [mesh_tensor_copy] types them.  The operations of
    the surrounding compiler are not under src/: the buffer subscript and
    [T.copy] are parameters of [mesh_tensor_copy], [T.func_attr] is
    recorded with its argument, and [T.ceildiv] follows the formula of
    the spec. *)

From Stdlib Require Import ZArith String List Lia.
From stdpp Require Import base option list gmap strings.

Set Default Proof Using "Type".
Set Warnings "-register-all".

(** ** Python values and the object store *)

(** Locations of mutable objects (what Python's [id] returns). *)
Abbreviation loc := nat.

(** Keys of a dictionary.  The model covers string and integer keys. *)
Inductive key :=
  | KStr (s : string)
  | KInt (z : Z).

Global Instance key_eq_dec : EqDecision key.
Proof. solve_decision. Defined.

(** Values: immutable ones are held directly, a list or a dictionary is a
    reference into the heap. *)
Inductive val :=
  | VNone
  | VInt (z : Z)
  | VStr (s : string)
  | VTuple (vs : list val)
  | VRef (l : loc).

(** Mutable objects.  A dictionary keeps its items in insertion order. *)
Inductive obj :=
  | ODict (kvs : list (key * val))
  | OList (vs : list val).

(** The heap allocates at its end; objects are never freed. *)
Abbreviation heap := (list obj).

Definition alloc (h : heap) (o : obj) : loc * heap := (length h, h ++ [o]).

(** ** Exceptions *)

(** A tensor handle: [tir.Buffer] with the fields the source reads. *)
Record Buffer := {
  name : string;
  data : nat;          (* identity of the storage variable [buffer.data] *)
  shape : list Z;      (* [buffer.shape], static extents *)
}.

(** The three messages of the source's [raise ValueError(...)]:
    - [MeshShapeMsg]: "mesh_shape must be a dict with 'x' and 'y' keys."
    - [InvalidInfoMsg info]: f"Invalid mesh tensor info: {info}"
    - [NotFoundMsg b]: f"MeshTensor information for buffer {b} not found." *)
Inductive message :=
  | MeshShapeMsg
  | InvalidInfoMsg (info : val)
  | NotFoundMsg (b : Buffer).

Inductive exn :=
  | ValueError (m : message)
  | KeyError
  | TypeError
  | IndexError
  | ZeroDivisionError
  | ExternalError (what : string).

Inductive result (A : Type) :=
  | Ok (a : A)
  | Err (e : exn).
Global Arguments Ok {A} a.
Global Arguments Err {A} e.

Global Instance result_ret : MRet result := λ A a, Ok a.
Global Instance result_bind : MBind result := λ A B f r,
  match r with Ok a => f a | Err e => Err e end.

(** ** Reading Python objects *)

Fixpoint dict_get {A : Type} (kvs : list (key * A)) (k : key) : option A :=
  match kvs with
  | [] => None
  | (k', v) :: kvs => if decide (k' = k) then Some v else dict_get kvs k
  end.

(** [isinstance(v, dict)] *)
Definition is_dict (h : heap) (v : val) : bool :=
  match v with
  | VRef l => match h !! l with Some (ODict _) => true | _ => false end
  | _ => false
  end.

(** [s in v], for [v] a dictionary. *)
Definition dict_contains (h : heap) (v : val) (s : string) : bool :=
  match v with
  | VRef l =>
      match h !! l with
      | Some (ODict kvs) => bool_decide (is_Some (dict_get kvs (KStr s)))
      | _ => false
      end
  | _ => false
  end.

(** [v[s]] for a string literal [s]: a dictionary is looked up and raises
    [KeyError] on a missing key; a list, tuple or string does not take a
    string subscript, and [None] or an integer takes none at all. *)
Definition getitem_str (h : heap) (v : val) (s : string) : result val :=
  match v with
  | VRef l =>
      match h !! l with
      | Some (ODict kvs) =>
          match dict_get kvs (KStr s) with
          | Some w => Ok w
          | None => Err KeyError
          end
      | _ => Err TypeError
      end
  | _ => Err TypeError
  end.

Definition val_of_key (k : key) : val :=
  match k with KStr s => VStr s | KInt z => VInt z end.

Fixpoint chars (s : string) : list val :=
  match s with
  | EmptyString => []
  | String c s => VStr (String c EmptyString) :: chars s
  end.

(** [iter(v)], as [zip] consumes it. *)
Definition py_iter (h : heap) (v : val) : result (list val) :=
  match v with
  | VTuple vs => Ok vs
  | VStr s => Ok (chars s)
  | VRef l =>
      match h !! l with
      | Some (OList vs) => Ok vs
      | Some (ODict kvs) => Ok (val_of_key ∘ fst <$> kvs)
      | None => Err TypeError
      end
  | VNone | VInt _ => Err TypeError
  end.

(** [xs[i]] and [xs[i] = q] on a Python list of length [n]: a negative
    index counts from the end. *)
Definition list_index (n : nat) (i : val) : result nat :=
  match i with
  | VInt z =>
      if bool_decide (0 ≤ z < Z.of_nat n)%Z then Ok (Z.to_nat z)
      else if bool_decide (- Z.of_nat n ≤ z < 0)%Z then Ok (Z.to_nat (Z.of_nat n + z))
      else Err IndexError
  | _ => Err TypeError
  end.

Definition list_getitem (xs : list Z) (i : val) : result Z :=
  k ← list_index (length xs) i;
  match xs !! k with Some x => Ok x | None => Err IndexError end.

Definition list_setitem (xs : list Z) (i : val) (q : Z) : result (list Z) :=
  k ← list_index (length xs) i; Ok (<[k:=q]> xs).

(** ** [copy.deepcopy]

    The library function, as the source uses it: atomic values are
    returned as they are, a tuple is rebuilt from the copies of its
    elements, and a list or dictionary is copied into a new object that
    is entered into the memo before its elements are copied, so that
    sharing and cycles are kept.  [n] bounds the depth of the recursion. *)

Fixpoint mapM_st {S A B : Type} (f : A → S → option (B * S))
    (xs : list A) (s : S) : option (list B * S) :=
  match xs with
  | [] => Some ([], s)
  | x :: xs =>
      '(y, s1) ← f x s; '(ys, s2) ← mapM_st f xs s1; Some (y :: ys, s2)
  end.

Definition on_item {S : Type} (f : val → S → option (val * S))
    (kv : key * val) (s : S) : option ((key * val) * S) :=
  '(y, s') ← f kv.2 s; Some ((kv.1, y), s').

Fixpoint deepcopy (n : nat) (x : val) (s : gmap loc loc * heap)
    : option (val * (gmap loc loc * heap)) :=
  match n with
  | 0 => None
  | S n =>
      match x with
      | VNone | VInt _ | VStr _ => Some (x, s)
      | VTuple vs =>
          '(ys, s') ← mapM_st (deepcopy n) vs s; Some (VTuple ys, s')
      | VRef l =>
          match s.1 !! l with
          | Some l' => Some (VRef l', s)
          | None =>
              o ← s.2 !! l;
              let l' := length s.2 in
              match o with
              | OList vs =>
                  '(ys, s') ← mapM_st (deepcopy n) vs
                                (<[l:=l']> s.1, s.2 ++ [OList []]);
                  Some (VRef l', (s'.1, <[l':=OList ys]> s'.2))
              | ODict kvs =>
                  '(ys, s') ← mapM_st (on_item (deepcopy n)) kvs
                                (<[l:=l']> s.1, s.2 ++ [ODict []]);
                  Some (VRef l', (s'.1, <[l':=ODict ys]> s'.2))
              end
          end
      end
  end.

(** Nesting depth of tuples, in a value and in the heap. *)
Fixpoint vdepth (v : val) : nat :=
  match v with
  | VTuple vs => S (max_list (vdepth <$> vs))
  | _ => 0
  end.

Definition obj_vals (o : obj) : list val :=
  match o with ODict kvs => kvs.*2 | OList vs => vs end.

Definition hdepth (h : heap) : nat :=
  max_list ((λ o, max_list (vdepth <$> obj_vals o)) <$> h).

(** A recursion depth that is enough for every value over [h]: each
    object of [h] is entered at most once, and between two objects lie
    at most its tuples. *)
Definition fuel_for (h : heap) (v : val) : nat :=
  length h * S (hdepth h) + vdepth v + 1.

(** [deepcopy(v)] with a new memo.  [None] only when [v] reaches a
    location that holds no object, which no Python heap has. *)
Definition py_deepcopy (h : heap) (v : val) : option (val * heap) :=
  '(y, s) ← deepcopy (fuel_for h v) v (∅, h); Some (y, s.2).

(** ** [T.ceildiv] *)

(** Modelled from the spec: the function [ceildiv] of [tilelang.language]
    is not under src/; "ceilDivide(a,b) = floor((a + b - 1) / b) for
    positive integers". *)
Definition ceilDivide (a b : Z) : Z := ((a + b - 1) `div` b)%Z.

(** The call [T.ceildiv(a, b)] with [b] read from the mesh shape, which
    the source does not validate: outside the positive integers the model
    follows integer floor division (a zero divisor raises, anything but
    an integer is a type error). *)
Definition T_ceildiv (a : Z) (b : val) : result Z :=
  match b with
  | VInt n => if decide (n = 0%Z) then Err ZeroDivisionError
              else Ok (ceilDivide a n)
  | _ => Err TypeError
  end.

(** ** The closure of [mesh_tensor_functions] *)

Record closure := {
  _mesh_shape : val;
  _mesh_tensor_info : gmap nat val;   (* keyed by [buffer.data] *)
}.

(** The call [T.func_attr({"mesh_tensor_info": _mesh_tensor_info})],
    recorded with the registry it is given. *)
Inductive func_attr :=
  | FuncAttr (mesh_tensor_info : gmap nat val).

(** [mesh_tensor_functions(mesh_shape)], lines 27-32: the new closure, or
    the [ValueError]. *)
Definition mesh_tensor_functions (h : heap) (mesh_shape : val)
    : option (result closure * heap) :=
  if is_dict h mesh_shape && dict_contains h mesh_shape "x"
     && dict_contains h mesh_shape "y"
  then
    '(c, h') ← py_deepcopy h mesh_shape;
    Some (Ok {| _mesh_shape := c; _mesh_tensor_info := ∅ |}, h')
  else Some (Err (ValueError MeshShapeMsg), h).

(** The test of lines 46-51. *)
Definition invalid_info (h : heap) (info : val) : bool :=
  negb (is_dict h info)
  || negb (dict_contains h info "block_shape")
  || negb (dict_contains h info "program_id")
  || negb (dict_contains h info "sharding").

(** The loop of lines 44-55 over [mesh_tensor_info.items()], on the
    registry [reg] that line 43 has just bound to a new dictionary. *)
Fixpoint annotate_loop (items : list (Buffer * val)) (h : heap)
    (reg : gmap nat val) : option (result () * heap * gmap nat val) :=
  match items with
  | [] => Some (Ok (), h, reg)
  | (buffer, info) :: items =>
      if invalid_info h info
      then Some (Err (ValueError (InvalidInfoMsg info)), h, reg)
      else
        '(c, h') ← py_deepcopy h info;
        annotate_loop items h' (<[data buffer:=c]> reg)
  end.

(** [annotate_mesh_tensor_info(mesh_tensor_info)], lines 42-58.  The
    argument is the dictionary's items in iteration order. *)
Definition annotate_mesh_tensor_info (st : closure) (h : heap)
    (mesh_tensor_info : list (Buffer * val))
    : option (result func_attr * heap * closure) :=
  '(r, h', reg) ← annotate_loop mesh_tensor_info h ∅;
  let st' := {| _mesh_shape := _mesh_shape st; _mesh_tensor_info := reg |} in
  Some (_ ← r; Ok (FuncAttr reg), h', st').

(** Lines 69-72: [_mesh_tensor_info.get(buffer.data, None)] and the test
    [info is None]. *)
Definition lookup_info (st : closure) (buffer : Buffer) : result val :=
  match default VNone (_mesh_tensor_info st !! data buffer) with
  | VNone => Err (ValueError (NotFoundMsg buffer))
  | info => Ok info
  end.

(** [get_tile_shape(buffer)], lines 68-82.  The heap is only read. *)
Definition get_tile_shape (st : closure) (h : heap) (buffer : Buffer)
    : result (list Z) :=
  let tensor_shape := shape buffer in
  info ← lookup_info st buffer;
  sharding ← getitem_str h info "sharding";
  sharding_x ← getitem_str h sharding "x";
  sharding ← getitem_str h info "sharding";
  sharding_y ← getitem_str h sharding "y";
  let tile_shape := tensor_shape in
  a ← list_getitem tile_shape sharding_x;
  nx ← getitem_str h (_mesh_shape st) "x";
  q ← T_ceildiv a nx;
  tile_shape ← list_setitem tile_shape sharding_x q;
  a ← list_getitem tile_shape sharding_y;
  ny ← getitem_str h (_mesh_shape st) "y";
  q ← T_ceildiv a ny;
  tile_shape ← list_setitem tile_shape sharding_y q;
  Ok tile_shape.

(** ** [mesh_tensor_copy] *)

Fixpoint string_repeat (n : nat) (s : string) : string :=
  match n with 0 => EmptyString | S n => (s ++ string_repeat n s)%string end.

(** [i * b] for an integer [i]: a product of integers, or the repetition
    of a string, tuple or list (which makes a new list). *)
Definition py_mul (i : Z) (b : val) (h : heap) : result val * heap :=
  match b with
  | VInt z => (Ok (VInt (i * z)), h)
  | VStr s => (Ok (VStr (string_repeat (Z.to_nat i) s)), h)
  | VTuple vs => (Ok (VTuple (concat (replicate (Z.to_nat i) vs))), h)
  | VRef l =>
      match h !! l with
      | Some (OList vs) =>
          let '(l', h') := alloc h (OList (concat (replicate (Z.to_nat i) vs))) in
          (Ok (VRef l'), h')
      | _ => (Err TypeError, h)
      end
  | VNone => (Err TypeError, h)
  end.

(** [tuple(i * b for i, b in pairs)] *)
Fixpoint block_offsets (pairs : list (Z * val)) (h : heap)
    : result (list val) * heap :=
  match pairs with
  | [] => (Ok [], h)
  | (i, b) :: pairs =>
      match py_mul i b h with
      | (Err e, h1) => (Err e, h1)
      | (Ok p, h1) =>
          match block_offsets pairs h1 with
          | (Err e, h2) => (Err e, h2)
          | (Ok ps, h2) => (Ok (p :: ps), h2)
          end
      end
  end.

(** An argument of the copy primitive: a buffer as it was passed in, or
    what subscripting it returned. *)
Inductive tensor (view : Type) :=
  | Whole (b : Buffer)
  | Sliced (v : view).
Global Arguments Whole {view} b.
Global Arguments Sliced {view} v.

Section mesh_tensor_copy.
(** The two operations of the surrounding compiler that the function
    calls: the subscript [buf[offsets]] of a buffer and [T.copy]. *)
Context {view R : Type}.
Variable buffer_getitem : Buffer → list val → result view.
Variable T_copy : tensor view → tensor view → result R.

(** The body of one [try], lines 101-104 (and 111-113). *)
Definition try_slice (st : closure) (h : heap) (buf : Buffer)
    (coord : list Z) : result view * heap :=
  match _mesh_tensor_info st !! data buf with
  | None => (Err KeyError, h)
  | Some info =>
      match getitem_str h info "block_shape" with
      | Err e => (Err e, h)
      | Ok block_shape =>
          match py_iter h block_shape with
          | Err e => (Err e, h)
          | Ok bs =>
              match block_offsets (zip coord bs) h with
              | (Err e, h') => (Err e, h')
              | (Ok offsets, h') => (buffer_getitem buf offsets, h')
              end
          end
      end
  end.

(** One [try ... except KeyError], lines 100-108 (and 110-117). *)
Definition slice_block (st : closure) (h : heap) (buf : Buffer)
    (coord : list Z) : result view * heap :=
  match try_slice st h buf coord with
  | (Err KeyError, h') => (Err (ValueError (NotFoundMsg buf)), h')
  | r => r
  end.

(** Lines 99-108 for [src], 109-117 for [dst]. *)
Definition resolve (st : closure) (h : heap) (buf : Buffer)
    (coord : option (list Z)) : result (tensor view) * heap :=
  match coord with
  | None => (Ok (Whole buf), h)
  | Some c =>
      match slice_block st h buf c with
      | (Ok v, h') => (Ok (Sliced v), h')
      | (Err e, h') => (Err e, h')
      end
  end.

(** [mesh_tensor_copy(src, dst, src_coord=..., dst_coord=...)] *)
Definition mesh_tensor_copy (st : closure) (h : heap) (src dst : Buffer)
    (src_coord dst_coord : option (list Z)) : result R * heap :=
  match resolve st h src src_coord with
  | (Err e, h1) => (Err e, h1)
  | (Ok src', h1) =>
      match resolve st h1 dst dst_coord with
      | (Err e, h2) => (Err e, h2)
      | (Ok dst', h2) => (T_copy src' dst', h2)
      end
  end.
End mesh_tensor_copy.

(** A symbolic reading of the two external operations, for running the
    functions on concrete inputs: the subscript takes as many offsets as
    the buffer has dimensions, and [T.copy] records its arguments. *)
Definition sym_getitem (b : Buffer) (offsets : list val)
    : result (Buffer * list val) :=
  if decide (length offsets = length (shape b)) then Ok (b, offsets)
  else Err (ExternalError "index rank").

Definition sym_copy (s d : tensor (Buffer * list val))
    : result (tensor (Buffer * list val) * tensor (Buffer * list val)) :=
  Ok (s, d).

(** ** The claims' vocabulary *)

(** [v] is a dictionary that has every key of [ks]. *)
Definition is_mapping_with (h : heap) (v : val) (ks : list string) : bool :=
  is_dict h v && forallb (dict_contains h v) ks.

(** The keys that lines 48-50 ask for. *)
Definition required_keys : list string :=
  ["block_shape"; "program_id"; "sharding"].

(** The mesh configuration as the spec words it: "a mapping containing
    both axis keys "x" and "y" with positive integer device counts". *)
Definition positive_count (h : heap) (v : val) (s : string) : bool :=
  match getitem_str h v s with
  | Ok (VInt n) => bool_decide (0 < n)%Z
  | _ => false
  end.

Definition valid_mesh_config (h : heap) (v : val) : bool :=
  is_dict h v && positive_count h v "x" && positive_count h v "y".

(** The offsets of block [cs] for block extents [bs]. *)
Definition element_offset (cs bs : list Z) : list val :=
  VInt <$> zip_with Z.mul cs bs.

(** One side of a copy as the spec words it: with no coordinate the
    tensor as it is, with coordinate [cs] the sub-view of [buf] at the
    element offset of [cs], for the block shape [bs] recorded for [buf]. *)
Definition side_view {view : Type}
    (buffer_getitem : Buffer → list val → result view)
    (st : closure) (h : heap) (buf : Buffer) (coord : option (list Z))
    (t : tensor view) : Prop :=
  match coord with
  | None => t = Whole buf
  | Some cs =>
      ∃ info block_shape bs v,
        _mesh_tensor_info st !! data buf = Some info ∧
        getitem_str h info "block_shape" = Ok block_shape ∧
        py_iter h block_shape = Ok (VInt <$> bs) ∧
        length cs = length bs ∧
        buffer_getitem buf (element_offset cs bs) = Ok v ∧
        t = Sliced v
  end.

(** ** Concrete runs *)

Module Run.
Definition mesh24 : obj := ODict [(KStr "x", VInt 2); (KStr "y", VInt 4)].
Definition mesh34 : obj := ODict [(KStr "x", VInt 3); (KStr "y", VInt 4)].
Definition shard01 : obj := ODict [(KStr "x", VInt 0); (KStr "y", VInt 1)].
(* an info dictionary with block shape [bs] and "sharding" [sh] *)
Definition info_of (bs sh : val) : obj :=
  ODict [(KStr "block_shape", bs); (KStr "program_id", VInt 0);
         (KStr "sharding", sh)].
Definition b16 : val := VTuple [VInt 16; VInt 16].
Definition b32 : val := VTuple [VInt 32; VInt 32].
Definition h0 : heap :=
  [ (* 0 *) mesh24;
    (* 1 *) mesh34;
    (* 2 *) shard01;
    (* 3 *) info_of b16 (VRef 2);
    (* 4, no "program_id" *)
            ODict [(KStr "block_shape", b16); (KStr "sharding", VRef 2)];
    (* 5, counts that are no positive integers *)
            ODict [(KStr "x", VInt 0); (KStr "y", VStr "four")];
    (* 6, a block shape that cannot be iterated *)
            info_of VNone (VRef 2);
    (* 7, a sharding without "y" *)
            info_of b16 (VRef 8);
    (* 8 *) ODict [(KStr "x", VInt 0)];
    (* 9, a sharding that is no dictionary *)
            info_of b16 (VStr "xy");
    (* 10 *) info_of b32 (VRef 2);
    (* 11, both mesh axes on dimension 0 *)
            ODict [(KStr "x", VInt 0); (KStr "y", VInt 0)];
    (* 12 *) info_of b16 (VRef 11) ].
Definition A : Buffer := {| name := "A"; data := 7; shape := [128; 256]%Z |}.
Definition B : Buffer := {| name := "B"; data := 8; shape := [100; 256]%Z |}.
Definition C : Buffer := {| name := "C"; data := 9; shape := [64; 64]%Z |}.
(* a second buffer over the storage of [A] *)
Definition A2 : Buffer := {| name := "A2"; data := 7; shape := [256; 128]%Z |}.

(* the closure over mesh [m] after [annotate_mesh_tensor_info(items)],
   with the heap and what the call returned *)
Definition annotated (m : val) (items : list (Buffer * val))
    : option (result func_attr * heap * closure) :=
  '(r, h1) ← mesh_tensor_functions h0 m;
  match r with
  | Err e => None
  | Ok st => annotate_mesh_tensor_info st h1 items
  end.

(* ... and then [get_tile_shape(b)] *)
Definition tile_of (m : val) (items : list (Buffer * val)) (b : Buffer)
    : option (result (list Z)) :=
  '(_, h2, st) ← annotated m items; Some (get_tile_shape st h2 b).

(* ... or the "block_shape" of what the lookup of [b] returns *)
Definition block_shape_of (m : val) (items : list (Buffer * val)) (b : Buffer)
    : option (result val) :=
  '(_, h2, st) ← annotated m items;
  Some (c ← lookup_info st b; getitem_str h2 c "block_shape").

(* ... or [mesh_tensor_copy(src, dst, src_coord=sc, dst_coord=dc)] *)
Definition copy_of (m : val) (items : list (Buffer * val))
    (src dst : Buffer) (sc dc : option (list Z)) :=
  '(_, h2, st) ← annotated m items;
  Some (mesh_tensor_copy sym_getitem sym_copy st h2 src dst sc dc).1.

(* the heap and closure after registering [A] and [C] on the 2 x 4 mesh *)
Definition items1 : list (Buffer * val) := [(A, VRef 3); (C, VRef 12)].
Definition h1 : heap :=
  Eval vm_compute in
    match annotated (VRef 0) items1 with
    | Some (_, h, _) => h
    | None => []
    end.
Definition st1 : closure :=
  Eval vm_compute in
    match annotated (VRef 0) items1 with
    | Some (_, _, st) => st
    | None => {| _mesh_shape := VNone; _mesh_tensor_info := ∅ |}
    end.

(* a second call, whose second entry has no "program_id" *)
Definition items2 : list (Buffer * val) := [(B, VRef 3); (C, VRef 4)].
Definition h2 : heap :=
  Eval vm_compute in
    match annotate_mesh_tensor_info st1 h1 items2 with
    | Some (_, h, _) => h
    | None => []
    end.
Definition st2 : closure :=
  Eval vm_compute in
    match annotate_mesh_tensor_info st1 h1 items2 with
    | Some (_, _, st) => st
    | None => {| _mesh_shape := VNone; _mesh_tensor_info := ∅ |}
    end.
End Run.


(** ** Well-formed heaps and equality of values *)

(** The locations a value mentions. *)
Fixpoint vrefs (v : val) : list loc :=
  match v with
  | VRef l => [l]
  | VTuple vs => mjoin (vrefs <$> vs)
  | _ => []
  end.

Definition orefs (o : obj) : list loc := mjoin (vrefs <$> obj_vals o).

(** Every reference of [v] points to an object of [h]. *)
Definition val_closed (h : heap) (v : val) : Prop :=
  ∀ r, r ∈ vrefs v → r < length h.

(** No object of the heap holds a dangling reference. *)
Definition heap_closed (h : heap) : Prop :=
  ∀ l o, h !! l = Some o → ∀ r, r ∈ orefs o → r < length h.

(** [v] with its references redirected along the memo. *)
Fixpoint rename (m : gmap loc loc) (v : val) : val :=
  match v with
  | VRef l => VRef (default l (m !! l))
  | VTuple vs => VTuple (rename m <$> vs)
  | _ => v
  end.

Definition rename_obj (m : gmap loc loc) (o : obj) : obj :=
  match o with
  | ODict kvs => ODict (prod_map id (rename m) <$> kvs)
  | OList vs => OList (rename m <$> vs)
  end.

(** The state of a running [deepcopy] over the caller's heap [h0]; the
    objects of [P] are the ones whose elements are still being copied. *)
Record copying (h0 : heap) (P : gset loc) (s : gmap loc loc * heap) : Prop := {
  cp_prefix : h0 `prefix_of` s.2;
  cp_memo : ∀ l l', s.1 !! l = Some l' →
      l < length h0 ∧ length h0 ≤ l' < length s.2;
  cp_inj : ∀ l1 l2 l', s.1 !! l1 = Some l' → s.1 !! l2 = Some l' → l1 = l2;
  cp_new : ∀ l' o, length h0 ≤ l' → s.2 !! l' = Some o →
      ∀ r, r ∈ orefs o → length h0 ≤ r < length s.2;
  cp_done : ∀ l l', s.1 !! l = Some l' → l ∉ P →
      ∃ o, h0 !! l = Some o ∧ (∀ r, r ∈ orefs o → is_Some (s.1 !! r)) ∧
           s.2 !! l' = Some (rename_obj s.1 o);
}.

(** What a value looks like from outside, to depth [n] of references. *)
Inductive tree :=
  | TNone
  | TInt (z : Z)
  | TStr (s : string)
  | TTuple (ts : list tree)
  | TList (ts : list tree)
  | TDict (kts : list (key * tree))
  | TCut
  | TDangling.

Fixpoint reify (n : nat) (h : heap) : val → tree :=
  fix go (v : val) : tree :=
    match v with
    | VNone => TNone
    | VInt z => TInt z
    | VStr s => TStr s
    | VTuple vs => TTuple (go <$> vs)
    | VRef l =>
        match n with
        | 0 => TCut
        | S n =>
            match h !! l with
            | None => TDangling
            | Some (OList vs) => TList (reify n h <$> vs)
            | Some (ODict kvs) => TDict (prod_map id (reify n h) <$> kvs)
            end
        end
    end.

(** [v1] over [h1] and [v2] over [h2] are equal as Python values: the
    same atoms, tuples, lists and dictionaries all the way down. *)
Definition veq (h1 : heap) (v1 : val) (h2 : heap) (v2 : val) : Prop :=
  ∀ n, reify n h1 v1 = reify n h2 v2.

(** [v] over [h] is out of reach of the objects below location [n0]:
    whatever is done to them, or allocated later, [v] reads the same. *)
Definition isolated (n0 : nat) (h : heap) (v : val) : Prop :=
  ∀ h', (∀ l, n0 ≤ l < length h → h' !! l = h !! l) → veq h' v h v.

(** [d] is the storage of no entry of [items]. *)
Definition unlisted (d : nat) (items : list (Buffer * val)) : Prop :=
  Forall (λ e, data e.1 ≠ d) items.

(** Closedness can be decided by running through the heap. *)
Global Instance val_closed_dec (h : heap) (v : val) : Decision (val_closed h v).
Proof.
  destruct (decide (Forall (λ r, r < length h) (vrefs v))) as [H | H].
  - left. intros r Hr. rewrite Forall_forall in H. by apply H.
  - right. intros H'. apply H, Forall_forall. exact H'.
Defined.

Global Instance heap_closed_dec (h : heap) : Decision (heap_closed h).
Proof.
  destruct (decide (Forall (λ o, Forall (λ r, r < length h) (orefs o)) h))
    as [H | H].
  - left. intros l o Hl r Hr. rewrite Forall_forall in H.
    apply list_elem_of_lookup_2 in Hl. specialize (H o Hl).
    rewrite Forall_forall in H. by apply H.
  - right. intros H'. apply H, Forall_forall. intros o Ho.
    apply Forall_forall. intros r Hr.
    apply list_elem_of_lookup in Ho as [l Hl]. by eapply H'.
Defined.

(** Decide a closed, decidable proposition by running its decision. *)
Ltac by_compute := apply (bool_decide_unpack _); vm_compute; exact I.

(** ** Runs at the edges *)

Module Edge.
Definition h0 : heap :=
  [ (* 0 *) Run.mesh24;
    (* 1, "x" counted from the end *)
            ODict [(KStr "x", VInt (-1)); (KStr "y", VInt 0)];
    (* 2 *) Run.info_of Run.b16 (VRef 1);
    (* 3, -1 and 1 are one dimension of a matrix *)
            ODict [(KStr "x", VInt (-1)); (KStr "y", VInt 1)];
    (* 4 *) Run.info_of Run.b16 (VRef 3);
    (* 5, no dimension 2 in a matrix *)
            ODict [(KStr "x", VInt 2); (KStr "y", VInt 0)];
    (* 6 *) Run.info_of Run.b16 (VRef 5);
    (* 7, block shapes that cannot be iterated *)
            Run.info_of VNone (VRef 1);
    (* 8 *) Run.info_of (VInt 16) (VRef 1);
    (* 9, no dimension for "x" *)
            ODict [(KStr "x", VNone); (KStr "y", VInt 0)];
    (* 10 *) Run.info_of Run.b16 (VRef 9) ].
Definition P : Buffer := {| name := "P"; data := 1; shape := [128; 256]%Z |}.
Definition Q : Buffer := {| name := "Q"; data := 2; shape := [128; 256]%Z |}.
Definition R : Buffer := {| name := "R"; data := 3; shape := [128; 256]%Z |}.
Definition S : Buffer := {| name := "S"; data := 4; shape := [128; 256]%Z |}.
Definition U : Buffer := {| name := "U"; data := 5; shape := [128; 256]%Z |}.
(* a buffer of rank 0 *)
Definition Z0 : Buffer := {| name := "Z0"; data := 6; shape := [] |}.
Definition V : Buffer := {| name := "V"; data := 7; shape := [128; 256]%Z |}.
Definition items : list (Buffer * val) :=
  [(P, VRef 2); (Q, VRef 4); (R, VRef 6); (S, VRef 7); (U, VRef 8);
   (Z0, VRef 2); (V, VRef 10)].

(* the closure over the 2 x 4 mesh after [annotate_mesh_tensor_info(items)] *)
Definition annotated : option (result func_attr * heap * closure) :=
  '(r, h) ← mesh_tensor_functions h0 (VRef 0);
  match r with
  | Err e => None
  | Ok st => annotate_mesh_tensor_info st h items
  end.
Definition h1 : heap :=
  Eval vm_compute in
    match annotated with Some (_, h, _) => h | None => [] end.
Definition st1 : closure :=
  Eval vm_compute in
    match annotated with
    | Some (_, _, st) => st
    | None => {| _mesh_shape := VNone; _mesh_tensor_info := ∅ |}
    end.
End Edge.

(** * Proofs *)

(** Structural induction on values, through the lists of tuples. *)
Lemma val_ind' (P : val → Prop) :
  P VNone → (∀ z, P (VInt z)) → (∀ s, P (VStr s)) →
  (∀ vs, Forall P vs → P (VTuple vs)) → (∀ l, P (VRef l)) →
  ∀ v, P v.
Proof.
  intros HN HI HS HT HR.
  refine (fix IH (v : val) : P v :=
    match v with
    | VNone => HN
    | VInt z => HI z
    | VStr s => HS s
    | VTuple vs =>
        HT vs ((fix go (vs : list val) : Forall P vs :=
                  match vs with
                  | [] => Forall_nil_2 P
                  | v :: vs => Forall_cons_2 P v vs (IH v) (go vs)
                  end) vs)
    | VRef l => HR l
    end).
Qed.

(** ** References of values *)

Lemma elem_of_vrefs_tuple r vs :
  r ∈ vrefs (VTuple vs) ↔ ∃ v, v ∈ vs ∧ r ∈ vrefs v.
Proof.
  simpl. rewrite list_elem_of_join. split.
  - intros (rs & Hr & Hrs). apply list_elem_of_fmap in Hrs as (v & -> & Hv). eauto.
  - intros (v & Hv & Hr). exists (vrefs v). split; [done|].
    apply list_elem_of_fmap. eauto.
Qed.

Lemma elem_of_orefs r o :
  r ∈ orefs o ↔ ∃ v, v ∈ obj_vals o ∧ r ∈ vrefs v.
Proof.
  unfold orefs. rewrite list_elem_of_join. split.
  - intros (rs & Hr & Hrs). apply list_elem_of_fmap in Hrs as (v & -> & Hv). eauto.
  - intros (v & Hv & Hr). exists (vrefs v). split; [done|].
    apply list_elem_of_fmap. eauto.
Qed.

Lemma obj_vals_rename m o : obj_vals (rename_obj m o) = rename m <$> obj_vals o.
Proof.
  destruct o as [kvs | vs]; simpl; [|done].
  unfold fmap. induction kvs as [| [k v] kvs IH]; simpl; [done|]. by f_equal.
Qed.

(** Growing the memo does not change the renaming of a value whose
    references it already covers. *)
Lemma rename_mono m m' v :
  m ⊆ m' → (∀ r, r ∈ vrefs v → is_Some (m !! r)) → rename m' v = rename m v.
Proof.
  intros Hsub. induction v as [| | | vs IH | l] using val_ind'; intros Hr; try done.
  - simpl. f_equal. apply list_fmap_ext. intros i v Hv.
    apply list_elem_of_lookup_2 in Hv. rewrite Forall_forall in IH.
    apply IH; [done|]. intros r Hrv. apply Hr, elem_of_vrefs_tuple. eauto.
  - simpl. destruct (Hr l) as [l' Hl']; [simpl; by left|].
    rewrite Hl'. by rewrite (lookup_weaken _ _ _ _ Hl' Hsub).
Qed.

Lemma rename_obj_mono m m' o :
  m ⊆ m' → (∀ r, r ∈ orefs o → is_Some (m !! r)) →
  rename_obj m' o = rename_obj m o.
Proof.
  intros Hsub Hr.
  assert (∀ v, v ∈ obj_vals o → rename m' v = rename m v) as Hv.
  { intros v Hv. apply rename_mono; [done|]. intros r Hrv.
    apply Hr, elem_of_orefs. eauto. }
  destruct o as [kvs | vs]; simpl in *; f_equal.
  - apply list_fmap_ext. intros i [k v] Hkv. unfold prod_map. simpl. f_equal.
    apply Hv. apply list_elem_of_fmap. exists (k, v). split; [done|].
    by eapply list_elem_of_lookup_2.
  - apply list_fmap_ext. intros i v Hi. apply Hv. by eapply list_elem_of_lookup_2.
Qed.

(** The references of a renamed value are images of the memo. *)
Lemma vrefs_rename m v r' :
  (∀ r, r ∈ vrefs v → is_Some (m !! r)) →
  r' ∈ vrefs (rename m v) → ∃ r, m !! r = Some r'.
Proof.
  induction v as [| | | vs IH | l] using val_ind'; intros Hr; simpl;
    try (by intros ?%elem_of_nil).
  - rewrite list_elem_of_join. intros (rs & Hr' & Hrs).
    apply list_elem_of_fmap in Hrs as (v' & -> & Hv').
    apply list_elem_of_fmap in Hv' as (v & -> & Hv).
    rewrite Forall_forall in IH. apply (IH v Hv); [|done].
    intros r Hrv. apply Hr, elem_of_vrefs_tuple. eauto.
  - destruct (Hr l) as [l' Hl']; [simpl; by left|]. rewrite Hl'. simpl.
    intros ->%list_elem_of_singleton. eauto.
Qed.

Lemma orefs_rename m o r' :
  (∀ r, r ∈ orefs o → is_Some (m !! r)) →
  r' ∈ orefs (rename_obj m o) → ∃ r, m !! r = Some r'.
Proof.
  intros Hr. rewrite elem_of_orefs, obj_vals_rename.
  intros (v' & Hv' & Hr'). apply list_elem_of_fmap in Hv' as (v & -> & Hv).
  apply (vrefs_rename m v); [|done]. intros r Hrv. apply Hr, elem_of_orefs. eauto.
Qed.

(** ** The invariant of a running copy *)

Lemma copying_init h : copying h ∅ (∅, h).
Proof.
  split; simpl; try (intros *; rewrite lookup_empty; done).
  - done.
  - intros l' o Hl' Ho. apply lookup_lt_Some in Ho. lia.
Qed.

(** Entering an object: the memo gets its new location, which holds an
    empty object for now. *)
Lemma copying_enter h0 P s l o :
  copying h0 P s → s.1 !! l = None → l < length h0 → orefs o = [] →
  copying h0 (P ∪ {[l]}) (<[l:=length s.2]> s.1, s.2 ++ [o]).
Proof.
  intros [Hpre Hmemo Hinj Hnew Hdone] Hl Hlt Ho. split; simpl.
  - by apply prefix_app_r.
  - intros l1 l1'. rewrite lookup_insert. case_decide as Hd.
    + intros [= <-]. subst. apply prefix_length in Hpre.
      rewrite length_app. simpl. lia.
    + intros H1. apply Hmemo in H1. rewrite length_app. simpl. lia.
  - intros l1 l2 l'. rewrite !lookup_insert.
    repeat case_decide; subst; try done.
    + intros [= <-] H2. apply Hmemo in H2. lia.
    + intros H1 [= <-]. apply Hmemo in H1. lia.
    + apply Hinj.
  - intros l' o' Hl' Hlk r Hr. rewrite length_app. simpl.
    apply lookup_snoc_Some in Hlk as [[? Hlk] | [_ <-]].
    + specialize (Hnew l' o' Hl' Hlk r Hr). lia.
    + rewrite Ho in Hr. by apply elem_of_nil in Hr.
  - intros l1 l1'. rewrite lookup_insert. case_decide as Hd.
    + intros _ Hnot. subst. exfalso.
      apply Hnot, elem_of_union. right. by apply elem_of_singleton.
    + intros H1 Hnot.
      destruct (Hdone l1 l1' H1) as (o1 & Ho1 & Hr1 & Hlk1).
      { intros HP. apply Hnot, elem_of_union. by left. }
      exists o1. split; [done|]. split.
      * intros r Hr. destruct (Hr1 r Hr) as [r' Hr'].
        rewrite lookup_insert. case_decide; eauto.
      * simpl. rewrite lookup_app_l; [|by eapply lookup_lt_Some].
        rewrite Hlk1. f_equal. symmetry. apply rename_obj_mono; [|done].
        by apply insert_subseteq.
Qed.

(** Leaving an object: its copy is written to the new location. *)
Lemma copying_leave h0 P s l l' o :
  copying h0 (P ∪ {[l]}) s → s.1 !! l = Some l' → h0 !! l = Some o →
  (∀ r, r ∈ orefs o → is_Some (s.1 !! r)) →
  copying h0 P (s.1, <[l':=rename_obj s.1 o]> s.2).
Proof.
  intros [Hpre Hmemo Hinj Hnew Hdone] Hl Ho Hr. split; simpl.
  - destruct Hpre as [k Hk]. destruct (Hmemo _ _ Hl) as [_ Hl'].
    rewrite Hk. rewrite insert_app_r_alt by lia. by eexists.
  - intros l1 l1' H1. rewrite length_insert. by apply Hmemo.
  - done.
  - intros l1' o1 Hl1' Hlk r Hr1. rewrite length_insert.
    rewrite list_lookup_insert in Hlk. case_decide as Hd.
    + destruct Hd as [-> _]. injection Hlk as <-.
      destruct (orefs_rename _ _ _ Hr Hr1) as [r0 Hr0].
      apply Hmemo in Hr0. lia.
    + by apply (Hnew l1' o1).
  - intros l1 l1' H1 Hnot. destruct (decide (l1 = l)) as [-> | Hne].
    + assert (l1' = l') as -> by congruence.
      exists o. split; [done|]. split; [done|].
      apply list_lookup_insert_eq. apply Hmemo in Hl. lia.
    + destruct (Hdone l1 l1' H1) as (o1 & Ho1 & Hr1 & Hlk1).
      { by intros [HP | Hl1%elem_of_singleton]%elem_of_union. }
      exists o1. split; [done|]. split; [done|].
      rewrite list_lookup_insert_ne; [done|].
      intros <-. apply Hne. by eapply Hinj.
Qed.

(** ** [deepcopy] keeps the invariant *)

Lemma mapM_on_item {S : Type} (f : val → S → option (val * S)) kvs s :
  mapM_st (on_item f) kvs s =
  '(ys, s') ← mapM_st f kvs.*2 s; Some (zip kvs.*1 ys, s').
Proof.
  revert s. induction kvs as [| [k v] kvs IH]; intros s; [done|].
  cbn [mapM_st fmap list_fmap fst snd].
  replace (on_item f (k, v) s)
    with (f v s ≫= λ '(y, s'), Some ((k, y), s')) by done.
  destruct (f v s) as [[y s1] |]; cbn; [|done].
  rewrite IH. by destruct (mapM_st f kvs.*2 s1) as [[ys s2] |].
Qed.

Lemma zip_fst_fmap_snd (g : val → val) (kvs : list (key * val)) :
  zip kvs.*1 (g <$> kvs.*2) = prod_map id g <$> kvs.
Proof. induction kvs as [| [k v] kvs IH]; simpl; [done|]. by f_equal. Qed.

Section copy_invariant.
Variable h0 : heap.
Hypothesis h0_closed : heap_closed h0.

Lemma mapM_copying P (f : val → gmap loc loc * heap → option (val * (gmap loc loc * heap))) :
  (∀ x s y s', f x s = Some (y, s') → copying h0 P s → val_closed h0 x →
     copying h0 P s' ∧ s.1 ⊆ s'.1 ∧
     (∀ r, r ∈ vrefs x → is_Some (s'.1 !! r)) ∧ y = rename s'.1 x) →
  ∀ vs s ys s', mapM_st f vs s = Some (ys, s') → copying h0 P s →
    Forall (val_closed h0) vs →
    copying h0 P s' ∧ s.1 ⊆ s'.1 ∧
    (∀ v r, v ∈ vs → r ∈ vrefs v → is_Some (s'.1 !! r)) ∧
    ys = rename s'.1 <$> vs.
Proof.
  intros Hf. induction vs as [| v vs IH]; intros s ys s' Hm Hcp Hcl; simpl in Hm.
  - injection Hm as <- <-. split; [done|]. split; [done|]. split; [|done].
    intros v r Hv. by apply elem_of_nil in Hv.
  - apply Forall_cons in Hcl as [Hv Hvs].
    destruct (f v s) as [[y s1] |] eqn:Hfv; simpl in Hm; [|done].
    destruct (mapM_st f vs s1) as [[ys' s2] |] eqn:Hmv; simpl in Hm; [|done].
    injection Hm as <- <-.
    destruct (Hf _ _ _ _ Hfv Hcp Hv) as (Hcp1 & Hsub1 & Hr1 & ->).
    destruct (IH _ _ _ Hmv Hcp1 Hvs) as (Hcp2 & Hsub2 & Hr2 & ->).
    split; [done|]. split; [by etrans|]. split.
    + intros v' r [-> | Hv']%elem_of_cons Hr; [|by eapply Hr2].
      destruct (Hr1 r Hr) as [r' Hr']. exists r'. by eapply lookup_weaken.
    + simpl. f_equal. symmetry. by apply rename_mono.
Qed.

Lemma deepcopy_copying n : ∀ P x s y s',
  deepcopy n x s = Some (y, s') → copying h0 P s → val_closed h0 x →
  copying h0 P s' ∧ s.1 ⊆ s'.1 ∧
  (∀ r, r ∈ vrefs x → is_Some (s'.1 !! r)) ∧ y = rename s'.1 x.
Proof using h0_closed.
  induction n as [| n IH]; intros P x s y s' Hd Hcp Hcl; [done|].
  destruct x as [| z | str | vs | l]; simpl in Hd.
  1-3: injection Hd as <- <-; split; [done|]; split; [done|]; split; [|done];
       intros r Hr; by apply elem_of_nil in Hr.
  - destruct (mapM_st (deepcopy n) vs s) as [[ys s1] |] eqn:Hm; simpl in Hd; [|done].
    injection Hd as <- <-.
    destruct (mapM_copying P _ (IH P) _ _ _ _ Hm Hcp) as (Hcp1 & Hsub & Hr & ->).
    { apply Forall_forall. intros v Hv r Hr. apply Hcl, elem_of_vrefs_tuple. eauto. }
    split; [done|]. split; [done|]. split; [|done].
    intros r (v & Hv & Hrv)%elem_of_vrefs_tuple. by eapply Hr.
  - assert (l < length h0) as Hlt by (apply Hcl; simpl; by left).
    destruct (s.1 !! l) as [l' |] eqn:Hl.
    { injection Hd as <- <-. split; [done|]. split; [done|]. split.
      - intros r ->%list_elem_of_singleton. eauto.
      - simpl. by rewrite Hl. }
    destruct (s.2 !! l) as [o |] eqn:Ho; simpl in Hd; [|done].
    assert (h0 !! l = Some o) as Ho0.
    { rewrite <- Ho. apply prefix_lookup_lt; [done | apply Hcp]. }
    assert (Forall (val_closed h0) (obj_vals o)) as Hvals.
    { apply Forall_forall. intros v Hv r Hr.
      apply (h0_closed l o Ho0), elem_of_orefs. eauto. }
    set (l' := length s.2) in *.
    assert (s.1 ⊆ <[l:=l']> s.1) as Hins by by apply insert_subseteq.
    destruct o as [kvs | vs].
    + rewrite mapM_on_item in Hd.
      destruct (mapM_st (deepcopy n) kvs.*2 _) as [[ys s1] |] eqn:Hm; simpl in Hd; [|done].
      injection Hd as <- <-.
      destruct (mapM_copying _ _ (IH (P ∪ {[l]})) _ _ _ _ Hm) as (Hcp1 & Hsub & Hr & ->);
        [by apply copying_enter | done |].
      simpl in Hsub. assert (s1.1 !! l = Some l') as Hl1.
      { eapply lookup_weaken; [|done]. apply lookup_insert_eq. }
      rewrite zip_fst_fmap_snd.
      split; [|split; [by etrans|split]].
      * apply (copying_leave h0 P s1 l l' (ODict kvs)); try done.
        intros r (v & Hv & Hrv)%elem_of_orefs. by eapply Hr.
      * intros r ->%list_elem_of_singleton. eauto.
      * simpl. by rewrite Hl1.
    + destruct (mapM_st (deepcopy n) vs _) as [[ys s1] |] eqn:Hm; simpl in Hd; [|done].
      injection Hd as <- <-.
      destruct (mapM_copying _ _ (IH (P ∪ {[l]})) _ _ _ _ Hm) as (Hcp1 & Hsub & Hr & ->);
        [by apply copying_enter | done |].
      simpl in Hsub. assert (s1.1 !! l = Some l') as Hl1.
      { eapply lookup_weaken; [|done]. apply lookup_insert_eq. }
      split; [|split; [by etrans|split]].
      * apply (copying_leave h0 P s1 l l' (OList vs)); try done.
        intros r (v & Hv & Hrv)%elem_of_orefs. by eapply Hr.
      * intros r ->%list_elem_of_singleton. eauto.
      * simpl. by rewrite Hl1.
Qed.
End copy_invariant.

(** ** [deepcopy] returns *)

Lemma vdepth_elem v vs : v ∈ vs → vdepth v < vdepth (VTuple vs).
Proof.
  intros Hv. simpl. apply Nat.lt_succ_r, max_list_elem_of_le.
  apply list_elem_of_fmap. eauto.
Qed.

Lemma vdepth_heap (h : heap) l o v :
  h !! l = Some o → v ∈ obj_vals o → vdepth v ≤ hdepth h.
Proof.
  intros Ho Hv. unfold hdepth.
  trans (max_list (vdepth <$> obj_vals o)).
  - apply max_list_elem_of_le, list_elem_of_fmap. eauto.
  - apply max_list_elem_of_le, list_elem_of_fmap.
    exists o. split; [done|]. by eapply list_elem_of_lookup_2.
Qed.

(** A location that is not in the memo yet leaves room in it. *)
Lemma copying_room h0 P s l :
  copying h0 P s → s.1 !! l = None → l < length h0 → size s.1 < length h0.
Proof.
  intros Hcp Hl Hlt.
  assert (dom s.1 ⊆ (set_seq 0 (length h0) : gset nat) ∖ {[l]}) as Hsub.
  { intros r Hr. apply elem_of_dom in Hr as [r' Hr'].
    apply elem_of_difference. split.
    - apply elem_of_set_seq. apply (cp_memo _ _ _ Hcp) in Hr'. lia.
    - intros ->%elem_of_singleton. congruence. }
  apply subseteq_size in Hsub. rewrite size_dom in Hsub.
  rewrite size_difference, size_set_seq, size_singleton in Hsub; [lia|].
  intros r ->%elem_of_singleton. apply elem_of_set_seq. lia.
Qed.

Section copy_total.
Variable h0 : heap.
Hypothesis h0_closed : heap_closed h0.

Lemma mapM_total P k d
    (f : val → gmap loc loc * heap → option (val * (gmap loc loc * heap))) :
  (∀ x s, copying h0 P s → val_closed h0 x → vdepth x ≤ d →
     length h0 ≤ k + size s.1 → is_Some (f x s)) →
  (∀ x s y s', f x s = Some (y, s') → copying h0 P s → val_closed h0 x →
     copying h0 P s' ∧ s.1 ⊆ s'.1) →
  ∀ vs s, copying h0 P s → Forall (val_closed h0) vs →
    Forall (λ v, vdepth v ≤ d) vs → length h0 ≤ k + size s.1 →
    is_Some (mapM_st f vs s).
Proof.
  intros Hf Hpres. induction vs as [| v vs IH]; intros s Hcp Hcl Hd Hk; simpl; [done|].
  apply Forall_cons in Hcl as [Hv Hvs]. apply Forall_cons in Hd as [Hdv Hdvs].
  destruct (Hf v s Hcp Hv Hdv Hk) as [[y s1] Hfv]. rewrite Hfv. simpl.
  destruct (Hpres _ _ _ _ Hfv Hcp Hv) as [Hcp1 Hsub].
  apply map_subseteq_size in Hsub.
  destruct (IH s1 Hcp1 Hvs Hdvs) as [[ys s2] Hm]; [lia|].
  rewrite Hm. done.
Qed.

Lemma deepcopy_total D n : hdepth h0 ≤ D → ∀ k P x s,
  copying h0 P s → val_closed h0 x → length h0 ≤ k + size s.1 →
  k * S D + vdepth x < n → is_Some (deepcopy n x s).
Proof using h0_closed.
  intros HD. induction n as [| n IH]; intros k P x s Hcp Hcl Hk Hn; [lia|].
  assert (∀ P x s y s', deepcopy n x s = Some (y, s') → copying h0 P s →
            val_closed h0 x → copying h0 P s' ∧ s.1 ⊆ s'.1) as Hpres.
  { intros P' x' s1 y s' Hd Hcp' Hcl'.
    destruct (deepcopy_copying h0 h0_closed n P' x' s1 y s' Hd Hcp' Hcl') as (? & ? & _).
    done. }
  destruct x as [| z | str | vs | l]; simpl; try done.
  - destruct (mapM_total P k (max_list (vdepth <$> vs)) (deepcopy n)) with (vs := vs) (s := s)
      as [[ys s1] Hm]; try done.
    + intros x s1 Hcp1 Hcl1 Hd1 Hk1. apply (IH k P); try done. simpl in Hn. lia.
    + apply Hpres.
    + apply Forall_forall. intros v Hv r Hr. apply Hcl, elem_of_vrefs_tuple. eauto.
    + apply Forall_forall. intros v Hv. apply vdepth_elem in Hv. simpl in Hv. lia.
    + by rewrite Hm.
  - assert (l < length h0) as Hlt by (apply Hcl; simpl; by left).
    destruct (s.1 !! l) as [l' |] eqn:Hl; [done|].
    pose proof (copying_room _ _ _ _ Hcp Hl Hlt) as Hroom.
    destruct (h0 !! l) as [o |] eqn:Ho0; [|apply lookup_ge_None in Ho0; lia].
    assert (s.2 !! l = Some o) as ->.
    { rewrite <- Ho0. symmetry. apply prefix_lookup_lt; [done | apply Hcp]. }
    simpl.
    assert (Forall (val_closed h0) (obj_vals o)) as Hvals.
    { apply Forall_forall. intros v Hv r Hr.
      apply (h0_closed l o Ho0), elem_of_orefs. eauto. }
    assert (Forall (λ v, vdepth v ≤ D) (obj_vals o)) as Hdep.
    { apply Forall_forall. intros v Hv. etrans; [by eapply vdepth_heap | done]. }
    assert (∀ x s1, copying h0 (P ∪ {[l]}) s1 → val_closed h0 x → vdepth x ≤ D →
              length h0 ≤ pred k + size s1.1 → is_Some (deepcopy n x s1)) as Hrec.
    { intros x s1 Hcp1 Hcl1 Hd1 Hk1. apply (IH (pred k) (P ∪ {[l]})); try done.
      simpl in Hn. destruct k as [| k]; simpl in *; [lia|]. nia. }
    assert (length h0 ≤ pred k + size (<[l:=length s.2]> s.1)) as Hk1.
    { rewrite map_size_insert_None by done. lia. }
    destruct o as [kvs | vs]; simpl in *.
    + rewrite mapM_on_item.
      destruct (mapM_total (P ∪ {[l]}) (pred k) D (deepcopy n)) with (vs := kvs.*2)
        (s := (<[l:=length s.2]> s.1, s.2 ++ [ODict []])) as [[ys s1] Hm]; try done.
      * apply Hpres.
      * by apply copying_enter.
      * by rewrite Hm.
    + destruct (mapM_total (P ∪ {[l]}) (pred k) D (deepcopy n)) with (vs := vs)
        (s := (<[l:=length s.2]> s.1, s.2 ++ [OList []])) as [[ys s1] Hm]; try done.
      * apply Hpres.
      * by apply copying_enter.
      * by rewrite Hm.
Qed.
End copy_total.

(** ** Observing values *)

Lemma reify_tuple n (h : heap) vs :
  reify n h (VTuple vs) = TTuple (reify n h <$> vs).
Proof. by destruct n. Qed.

Lemma reify_ref n (h : heap) l :
  reify (S n) h (VRef l) =
  match h !! l with
  | None => TDangling
  | Some (OList vs) => TList (reify n h <$> vs)
  | Some (ODict kvs) => TDict (prod_map id (reify n h) <$> kvs)
  end.
Proof. done. Qed.

Lemma fmap_ext_vals {B} (f g : val → B) (o : obj) :
  (∀ v, v ∈ obj_vals o → f v = g v) →
  match o with
  | ODict kvs => prod_map id f <$> kvs = prod_map id g <$> kvs
  | OList vs => f <$> vs = g <$> vs
  end.
Proof.
  intros Hv. destruct o as [kvs | vs]; simpl in *.
  - apply list_fmap_ext. intros i [k v] Hi. unfold prod_map. simpl. f_equal.
    apply Hv, list_elem_of_fmap. exists (k, v). split; [done|].
    by eapply list_elem_of_lookup_2.
  - apply list_fmap_ext. intros i v Hi. apply Hv. by eapply list_elem_of_lookup_2.
Qed.

(** Two heaps that agree from [n0] on give the same reading to a value
    that stays in that part. *)
Lemma reify_agree n0 (h h' : heap) :
  (∀ l, n0 ≤ l < length h → h' !! l = h !! l) →
  (∀ l o, n0 ≤ l → h !! l = Some o → ∀ r, r ∈ orefs o → n0 ≤ r < length h) →
  ∀ n v, (∀ r, r ∈ vrefs v → n0 ≤ r < length h) → reify n h' v = reify n h v.
Proof.
  intros Hag Hcl. induction n as [| n IHn];
    induction v as [| | | vs IHv | l] using val_ind'; intros Hr; try done.
  - rewrite !reify_tuple. f_equal. apply list_fmap_ext. intros i v Hv.
    apply list_elem_of_lookup_2 in Hv. rewrite Forall_forall in IHv.
    apply IHv; [done|]. intros r Hrv. apply Hr, elem_of_vrefs_tuple. eauto.
  - assert (n0 ≤ l < length h) as Hl by (apply Hr; simpl; by left).
    rewrite !reify_ref, (Hag l Hl).
    destruct (h !! l) as [o |] eqn:Ho; [|done].
    assert (∀ v, v ∈ obj_vals o → reify n h' v = reify n h v) as Hvals.
    { intros v Hv. apply IHn. intros r Hrv.
      apply (Hcl l o); [lia | done |]. apply elem_of_orefs. eauto. }
    apply fmap_ext_vals in Hvals. destruct o; by f_equal.
Qed.

Lemma veq_sym h1 v1 h2 v2 : veq h1 v1 h2 v2 → veq h2 v2 h1 v1.
Proof. intros H n. by rewrite H. Qed.

Lemma veq_trans h1 v1 h2 v2 h3 v3 :
  veq h1 v1 h2 v2 → veq h2 v2 h3 v3 → veq h1 v1 h3 v3.
Proof. intros H12 H23 n. by rewrite H12. Qed.

(** Allocation does not change how an existing value reads. *)
Lemma veq_prefix (h h' : heap) v :
  h `prefix_of` h' → heap_closed h → val_closed h v → veq h' v h v.
Proof.
  intros Hpre Hcl Hv n. apply (reify_agree 0).
  - intros l Hl. symmetry. apply prefix_lookup_lt; [lia | done].
  - intros l o _ Ho r Hr. split; [lia|]. by eapply Hcl.
  - intros r Hr. split; [lia|]. by apply Hv.
Qed.

Lemma isolated_weaken n0 n1 (h h' : heap) v :
  isolated n0 h v → n1 ≤ n0 → h `prefix_of` h' → isolated n1 h' v.
Proof.
  intros Hiso Hle Hpre h'' Hag.
  assert (veq h' v h v) as Hh'.
  { apply Hiso. intros l Hl. symmetry. apply prefix_lookup_lt; [lia | done]. }
  eapply veq_trans; [|by apply veq_sym].
  apply Hiso. intros l Hl. apply prefix_length in Hpre as Hlen.
  rewrite Hag by lia. symmetry. apply prefix_lookup_lt; [lia | done].
Qed.

(** ** What [deepcopy] returns *)

(** A finished copy reads like the original. *)
Lemma reify_rename (h0 : heap) s :
  copying h0 ∅ s →
  ∀ n v, (∀ r, r ∈ vrefs v → is_Some (s.1 !! r)) →
    reify n s.2 (rename s.1 v) = reify n h0 v.
Proof.
  intros Hcp. induction n as [| n IHn];
    induction v as [| | | vs IHv | l] using val_ind'; intros Hr; try done.
  - simpl rename. rewrite !reify_tuple. f_equal. rewrite <- list_fmap_compose.
    apply list_fmap_ext. intros i v Hv. simpl.
    apply list_elem_of_lookup_2 in Hv. rewrite Forall_forall in IHv.
    apply IHv; [done|]. intros r Hrv. apply Hr, elem_of_vrefs_tuple. eauto.
  - simpl rename. rewrite !reify_tuple. f_equal. rewrite <- list_fmap_compose.
    apply list_fmap_ext. intros i v Hv. simpl.
    apply list_elem_of_lookup_2 in Hv. rewrite Forall_forall in IHv.
    apply IHv; [done|]. intros r Hrv. apply Hr, elem_of_vrefs_tuple. eauto.
  - destruct (Hr l) as [l' Hl']; [simpl; by left|].
    simpl rename. rewrite Hl'. simpl default. rewrite !reify_ref.
    destruct (cp_done _ _ _ Hcp l l' Hl') as (o & Ho & Hro & Hlk);
      [apply not_elem_of_empty|].
    rewrite Hlk, Ho.
    assert (∀ v, v ∈ obj_vals o → reify n s.2 (rename s.1 v) = reify n h0 v) as Hvals.
    { intros v Hv. apply IHn. intros r Hrv. apply Hro, elem_of_orefs. eauto. }
    apply (fmap_ext_vals (reify n s.2 ∘ rename s.1)) in Hvals.
    destruct o as [kvs | vs]; simpl; f_equal; rewrite <- list_fmap_compose.
    + rewrite <- Hvals. apply list_fmap_ext. by intros i [k v] _.
    + done.
Qed.

Lemma py_deepcopy_spec (h : heap) v :
  heap_closed h → val_closed h v →
  ∃ y h', py_deepcopy h v = Some (y, h') ∧
    h `prefix_of` h' ∧ heap_closed h' ∧ val_closed h' y ∧
    veq h' y h v ∧ isolated (length h) h' y.
Proof.
  intros Hh Hv. unfold py_deepcopy.
  destruct (deepcopy_total h Hh (hdepth h) (fuel_for h v) (le_n _) (length h) ∅ v (∅, h))
    as [[y s] Hd]; [apply copying_init | done | simpl; lia | unfold fuel_for; lia |].
  rewrite Hd. simpl. exists y, s.2. split; [done|].
  destruct (deepcopy_copying h Hh _ _ _ _ _ _ Hd (copying_init h) Hv)
    as (Hcp & _ & Hr & ->).
  assert (∀ r, r ∈ vrefs (rename s.1 v) → length h ≤ r < length s.2) as Hy.
  { intros r' Hr'. destruct (vrefs_rename _ _ _ Hr Hr') as [r Hm].
    apply (cp_memo _ _ _ Hcp) in Hm. lia. }
  split; [apply Hcp|]. split; [|split; [|split]].
  - intros l o Ho r Hro. destruct (decide (l < length h)) as [Hl | Hl].
    + rewrite <- (prefix_lookup_lt h s.2) in Ho; [|done|apply Hcp].
      pose proof (prefix_length _ _ (cp_prefix _ _ _ Hcp)).
      specialize (Hh l o Ho r Hro). lia.
    + apply (cp_new _ _ _ Hcp l o); [lia | done | done].
  - intros r Hr'. by apply Hy.
  - intros n. by apply reify_rename.
  - intros h' Hag n. apply (reify_agree (length h)); [done| |done].
    intros l o Hl Ho r Hro. by apply (cp_new _ _ _ Hcp l o).
Qed.

(** ** Equal values answer the source's questions alike *)

Lemma dict_get_fmap {A B} (f : A → B) (kvs : list (key * A)) k :
  dict_get (prod_map id f <$> kvs) k = f <$> dict_get kvs k.
Proof.
  induction kvs as [| [k' v] kvs IH]; simpl; [done|].
  by destruct (decide (k' = k)).
Qed.

Lemma dict_contains_getitem (h : heap) v s :
  dict_contains h v s = match getitem_str h v s with Ok _ => true | Err _ => false end.
Proof.
  destruct v as [| | | | l]; simpl; try done.
  destruct (h !! l) as [[kvs | vs] |]; try done.
  by destruct (dict_get kvs (KStr s)).
Qed.

Lemma is_dict_veq (h1 h2 : heap) v1 v2 :
  veq h1 v1 h2 v2 → is_dict h1 v1 = is_dict h2 v2.
Proof.
  intros H. specialize (H 1).
  destruct v1 as [| | | | l1], v2 as [| | | | l2]; simpl in *;
    repeat case_match; by simplify_eq.
Qed.

Lemma getitem_str_veq (h1 h2 : heap) v1 v2 s :
  veq h1 v1 h2 v2 →
  match getitem_str h1 v1 s, getitem_str h2 v2 s with
  | Ok w1, Ok w2 => veq h1 w1 h2 w2
  | Err e1, Err e2 => e1 = e2
  | _, _ => False
  end.
Proof.
  intros H. pose proof (H 1) as H1.
  destruct v1 as [| | | | l1], v2 as [| | | | l2]; simpl in H1 |- *; try done;
    try (by destruct (h2 !! l2) as [[] |]); try (by destruct (h1 !! l1) as [[] |]).
  - destruct (h1 !! l1) as [[kvs1 | vs1] |] eqn:E1,
      (h2 !! l2) as [[kvs2 | vs2] |] eqn:E2; try done.
    assert (∀ n, reify n h1 <$> dict_get kvs1 (KStr s)
               = reify n h2 <$> dict_get kvs2 (KStr s)) as Hget.
    { intros n. specialize (H (S n)). rewrite !reify_ref, E1, E2 in H.
      injection H as H. by rewrite <- !dict_get_fmap, H. }
    pose proof (Hget 0) as H0.
    destruct (dict_get kvs1 (KStr s)) as [w1 |], (dict_get kvs2 (KStr s)) as [w2 |];
      try done.
    intros n. specialize (Hget n). by injection Hget.
Qed.

Lemma dict_contains_veq (h1 h2 : heap) v1 v2 s :
  veq h1 v1 h2 v2 → dict_contains h1 v1 s = dict_contains h2 v2 s.
Proof.
  intros H. rewrite !dict_contains_getitem.
  pose proof (getitem_str_veq _ _ _ _ s H) as Hg.
  by destruct (getitem_str h1 v1 s), (getitem_str h2 v2 s).
Qed.

Lemma invalid_info_veq (h1 h2 : heap) v1 v2 :
  veq h1 v1 h2 v2 → invalid_info h1 v1 = invalid_info h2 v2.
Proof.
  intros H. unfold invalid_info.
  by rewrite (is_dict_veq _ _ _ _ H), !(dict_contains_veq _ _ _ _ _ H).
Qed.

(** ** The loop of [annotate_mesh_tensor_info] *)

Lemma annotate_loop_app pre rest (h : heap) reg :
  annotate_loop (pre ++ rest) h reg =
  match annotate_loop pre h reg with
  | Some (Ok _, h', reg') => annotate_loop rest h' reg'
  | other => other
  end.
Proof.
  revert h reg. induction pre as [| [b info] pre IH]; intros h reg; simpl; [done|].
  destruct (invalid_info h info); [done|].
  destruct (py_deepcopy h info) as [[c h'] |]; simpl; [|done]. apply IH.
Qed.

(** The storage of no processed entry keeps what the registry had. *)
Lemma annotate_loop_unlisted items : ∀ (h : heap) reg r h' reg' d,
  annotate_loop items h reg = Some (r, h', reg') → unlisted d items →
  reg' !! d = reg !! d.
Proof.
  induction items as [| [b info] items IH]; intros h reg r h' reg' d Hl Hd; simpl in Hl.
  - by injection Hl as _ _ <-.
  - apply Forall_cons in Hd as [Hb Hd]. simpl in Hb.
    destruct (invalid_info h info); [by injection Hl as _ _ <-|].
    destruct (py_deepcopy h info) as [[c h1] |]; simpl in Hl; [|done].
    rewrite (IH _ _ _ _ _ _ Hl Hd). by apply lookup_insert_ne.
Qed.

(** A failed loop stopped at its first invalid entry, having done what
    the loop over the entries before it does. *)
Lemma annotate_loop_failed items : ∀ (h : heap) reg e h' reg',
  annotate_loop items h reg = Some (Err e, h', reg') →
  ∃ pre b info post, items = pre ++ (b, info) :: post ∧
    e = ValueError (InvalidInfoMsg info) ∧ invalid_info h' info = true ∧
    annotate_loop pre h reg = Some (Ok (), h', reg').
Proof.
  induction items as [| [b info] items IH]; intros h reg e h' reg' Hl; simpl in Hl; [done|].
  destruct (invalid_info h info) eqn:Hinv.
  - injection Hl as <- <- <-. by exists [], b, info, items.
  - destruct (py_deepcopy h info) as [[c h1] |] eqn:Hc; simpl in Hl; [|done].
    destruct (IH _ _ _ _ _ Hl) as (pre & b' & info' & post & -> & -> & Hinv' & Hpre).
    exists ((b, info) :: pre), b', info', post. split; [done|]. split; [done|].
    split; [done|]. simpl. by rewrite Hinv, Hc.
Qed.

(** On valid entries the loop runs to its end, and the registry holds a
    copy of the info of the last entry of each storage. *)
Lemma annotate_loop_ok items : ∀ (h : heap) reg,
  heap_closed h → Forall (λ e, val_closed h e.2) items →
  Forall (λ e, invalid_info h e.2 = false) items →
  ∃ h' reg', annotate_loop items h reg = Some (Ok (), h', reg') ∧
    h `prefix_of` h' ∧ heap_closed h' ∧
    ∀ pre b info post, items = pre ++ (b, info) :: post →
      unlisted (data b) post →
      ∃ c, reg' !! data b = Some c ∧ veq h' c h info ∧
           isolated (length h) h' c.
Proof.
  induction items as [| [b info] items IH]; intros h reg Hh Hcl Hval; simpl.
  - exists h, reg. split; [done|]. split; [done|]. split; [done|].
    intros pre b info post Heq. by destruct pre.
  - apply Forall_cons in Hcl as [Hinfo Hcl]. apply Forall_cons in Hval as [Hv Hval].
    simpl in Hinfo, Hv. rewrite Hv.
    destruct (py_deepcopy_spec h info Hh Hinfo)
      as (c & h1 & -> & Hpre1 & Hh1 & Hc1 & Heq1 & Hiso1). simpl.
    assert (∀ v, val_closed h v → val_closed h1 v) as Hmono.
    { intros v Hvc r Hr. apply prefix_length in Hpre1. specialize (Hvc r Hr). lia. }
    destruct (IH h1 (<[data b:=c]> reg) Hh1) as (h' & reg' & Hl & Hpre & Hh' & Hreg).
    { eapply Forall_impl; [exact Hcl|]. intros e He. by apply Hmono. }
    { rewrite Forall_forall in Hval, Hcl. apply Forall_forall. intros e He.
      rewrite <- (Hval e He). apply invalid_info_veq, veq_prefix; auto. }
    exists h', reg'. split; [done|]. split; [by etrans|]. split; [done|].
    intros pre b0 info0 post Heq Hun. destruct pre as [| e pre]; simpl in Heq.
    + injection Heq as <- <- <-. exists c.
      rewrite (annotate_loop_unlisted _ _ _ _ _ _ _ Hl Hun), lookup_insert_eq.
      split; [done|]. split.
      * eapply veq_trans; [|done]. by apply veq_prefix.
      * eapply isolated_weaken; [done | lia | done].
    + injection Heq as <- ->.
      destruct (Hreg pre b0 info0 post eq_refl Hun) as (c0 & Hc0 & Heq0 & Hiso0).
      exists c0. split; [done|]. split.
      * eapply veq_trans; [done|]. apply veq_prefix; [done | done |].
        rewrite Forall_forall in Hcl. apply (Hcl (b0, info0)).
        apply elem_of_app. right. left.
      * eapply isolated_weaken; [done | by apply prefix_length | done].
Qed.

(** ** The checks of the source *)

Lemma is_mapping_with_required (h : heap) v :
  is_mapping_with h v required_keys = negb (invalid_info h v).
Proof.
  unfold is_mapping_with, invalid_info, required_keys. simpl.
  destruct (is_dict h v), (dict_contains h v "block_shape"),
    (dict_contains h v "program_id"), (dict_contains h v "sharding"); done.
Qed.

(** ** Python lists *)

Lemma list_getitem_nonneg xs (z x : Z) :
  (0 ≤ z)%Z → xs !! Z.to_nat z = Some x → list_getitem xs (VInt z) = Ok x.
Proof.
  intros Hz Hx. unfold list_getitem, list_index.
  apply lookup_lt_Some in Hx as Hlt.
  rewrite bool_decide_eq_true_2 by lia. simpl. by rewrite Hx.
Qed.

Lemma list_setitem_nonneg xs (z q : Z) :
  (0 ≤ z)%Z → Z.to_nat z < length xs →
  list_setitem xs (VInt z) q = Ok (<[Z.to_nat z:=q]> xs).
Proof.
  intros Hz Hlt. unfold list_setitem, list_index.
  by rewrite bool_decide_eq_true_2 by lia.
Qed.

Lemma getitem_str_not_none (h : heap) v s w :
  getitem_str h v s = Ok w → v ≠ VNone.
Proof. by destruct v. Qed.

Lemma lookup_info_some st b info :
  _mesh_tensor_info st !! data b = Some info → info ≠ VNone →
  lookup_info st b = Ok info.
Proof. intros Hreg Hn. unfold lookup_info. rewrite Hreg. by destruct info. Qed.

Lemma lookup_info_none st b :
  _mesh_tensor_info st !! data b = None →
  lookup_info st b = Err (ValueError (NotFoundMsg b)).
Proof. intros Hreg. unfold lookup_info. by rewrite Hreg. Qed.

Lemma getitem_str_not_dict (h : heap) v s :
  is_dict h v = false → getitem_str h v s = Err TypeError.
Proof.
  destruct v as [| | | | l]; simpl; try done. by destruct (h !! l) as [[] |].
Qed.

Lemma getitem_str_missing (h : heap) v s :
  is_dict h v = true → dict_contains h v s = false →
  getitem_str h v s = Err KeyError.
Proof.
  rewrite dict_contains_getitem.
  destruct v as [| | | | l]; simpl; try done.
  destruct (h !! l) as [[kvs | vs] |]; try done.
  by destruct (dict_get kvs (KStr s)).
Qed.

(** ** Block offsets *)

Lemma block_offsets_ints (h : heap) cs bs :
  block_offsets (zip cs (VInt <$> bs)) h = (Ok (element_offset cs bs), h).
Proof.
  unfold element_offset. revert bs.
  induction cs as [| c cs IH]; intros [| b bs]; simpl; try done.
  by rewrite IH.
Qed.

Lemma element_offset_length cs bs :
  length (element_offset cs bs) = length cs `min` length bs.
Proof. unfold element_offset. by rewrite length_fmap, length_zip_with. Qed.

(** * The claims *)

(** ** Tile shapes *)

(** For a positive divisor [ceilDivide] is the quotient rounded up. *)
Lemma ceilDivide_is_ceiling (a b : Z) :
  (0 < b)%Z →
  (a ≤ ceilDivide a b * b)%Z ∧ ((ceilDivide a b - 1) * b < a)%Z.
Proof.
  intros Hb. unfold ceilDivide.
  pose proof (Z.div_mod (a + b - 1) b) as Hdm.
  pose proof (Z.mod_pos_bound (a + b - 1) b Hb) as Hr. lia.
Qed.

Lemma ceilDivide_exact (q b : Z) : (0 < b)%Z → ceilDivide (q * b) b = q.
Proof.
  intros Hb. unfold ceilDivide.
  replace (q * b + b - 1)%Z with ((b - 1) + q * b)%Z by lia.
  rewrite Z.div_add by lia. rewrite Z.div_small by lia. lia.
Qed.

Lemma ceilDivide_small (a b : Z) : (0 < a ≤ b)%Z → ceilDivide a b = 1%Z.
Proof.
  intros Hab. unfold ceilDivide.
  replace (a + b - 1)%Z with ((a - 1) + 1 * b)%Z by lia.
  rewrite Z.div_add by lia. rewrite Z.div_small by lia. lia.
Qed.

(** C5.  For a registered buffer whose sharding sends mesh axis "x" to
    dimension [dx] and "y" to a different dimension [dy], on a mesh with
    positive device counts [nx] and [ny], [get_tile_shape] returns a
    shape whose dimension [dx] is [ceilDivide gx nx], that is
    floor((gx + nx - 1) / nx), whose dimension [dy] is [ceilDivide gy ny],
    and whose other dimensions are those of the global shape. *)
Theorem tile_shape_two_axes st (h : heap) b info sharding (dx dy nx ny gx gy : Z) :
  _mesh_tensor_info st !! data b = Some info →
  getitem_str h info "sharding" = Ok sharding →
  getitem_str h sharding "x" = Ok (VInt dx) →
  getitem_str h sharding "y" = Ok (VInt dy) →
  getitem_str h (_mesh_shape st) "x" = Ok (VInt nx) →
  getitem_str h (_mesh_shape st) "y" = Ok (VInt ny) →
  (0 < nx)%Z → (0 < ny)%Z →
  (0 ≤ dx)%Z → (0 ≤ dy)%Z → dx ≠ dy →
  shape b !! Z.to_nat dx = Some gx →
  shape b !! Z.to_nat dy = Some gy →
  ∃ tile, get_tile_shape st h b = Ok tile ∧
    tile !! Z.to_nat dx = Some (ceilDivide gx nx) ∧
    ceilDivide gx nx = ((gx + nx - 1) `div` nx)%Z ∧
    tile !! Z.to_nat dy = Some (ceilDivide gy ny) ∧
    ceilDivide gy ny = ((gy + ny - 1) `div` ny)%Z ∧
    length tile = length (shape b) ∧
    ∀ i, i ≠ Z.to_nat dx → i ≠ Z.to_nat dy → tile !! i = shape b !! i.
Proof.
  intros Hreg Hsh Hx Hy Hnx Hny Hpx Hpy Hdx Hdy Hne Hgx Hgy.
  assert (Z.to_nat dx ≠ Z.to_nat dy) as Hne' by lia.
  pose proof (lookup_lt_Some _ _ _ Hgx) as Hltx.
  pose proof (lookup_lt_Some _ _ _ Hgy) as Hlty.
  exists (<[Z.to_nat dy:=ceilDivide gy ny]> (<[Z.to_nat dx:=ceilDivide gx nx]> (shape b))).
  split.
  - unfold get_tile_shape.
    rewrite (lookup_info_some st b info Hreg (getitem_str_not_none _ _ _ _ Hsh)).
    simpl. rewrite Hsh. simpl. rewrite Hx, Hy. simpl.
    rewrite (list_getitem_nonneg _ _ _ Hdx Hgx). simpl. rewrite Hnx. simpl.
    unfold T_ceildiv at 1. destruct (decide (nx = 0%Z)) as [-> | _]; [lia|]. simpl.
    rewrite (list_setitem_nonneg _ _ _ Hdx Hltx). simpl.
    rewrite (list_getitem_nonneg _ dy gy Hdy)
      by by rewrite list_lookup_insert_ne.
    simpl. rewrite Hny. simpl.
    unfold T_ceildiv. destruct (decide (ny = 0%Z)) as [-> | _]; [lia|]. simpl.
    by rewrite list_setitem_nonneg by (by rewrite ?length_insert).
  - split; [|split; [done|split; [|split; [done|split]]]].
    + rewrite list_lookup_insert_ne by done.
      by apply list_lookup_insert_eq.
    + apply list_lookup_insert_eq. by rewrite length_insert.
    + by rewrite !length_insert.
    + intros i Hix Hiy. by rewrite !list_lookup_insert_ne.
Qed.

Lemma tile_shape_two_axes_witness :
  ∃ tile, get_tile_shape Run.st1 Run.h1 Run.A = Ok tile ∧
    tile !! 0 = Some 64%Z ∧ tile !! 1 = Some 64%Z.
Proof.
  destruct (tile_shape_two_axes Run.st1 Run.h1 Run.A (VRef 14) (VRef 15)
              0 1 2 4 128 256)
    as (tile & Ht & Hx & _ & Hy & _); try reflexivity; try lia.
  exists tile. split; [exact Ht|]. split; [exact Hx | exact Hy].
Defined.

(** C8.  When the sharding sends both mesh axes to the same dimension
    [d], [get_tile_shape] raises nothing and divides that dimension
    twice: it becomes [ceilDivide (ceilDivide g nx) ny], and the other
    dimensions stay. *)
Theorem tile_shape_same_axis st (h : heap) b info sharding (d nx ny g : Z) :
  _mesh_tensor_info st !! data b = Some info →
  getitem_str h info "sharding" = Ok sharding →
  getitem_str h sharding "x" = Ok (VInt d) →
  getitem_str h sharding "y" = Ok (VInt d) →
  getitem_str h (_mesh_shape st) "x" = Ok (VInt nx) →
  getitem_str h (_mesh_shape st) "y" = Ok (VInt ny) →
  (0 < nx)%Z → (0 < ny)%Z → (0 ≤ d)%Z →
  shape b !! Z.to_nat d = Some g →
  ∃ tile, get_tile_shape st h b = Ok tile ∧
    tile !! Z.to_nat d = Some (ceilDivide (ceilDivide g nx) ny) ∧
    length tile = length (shape b) ∧
    ∀ i, i ≠ Z.to_nat d → tile !! i = shape b !! i.
Proof.
  intros Hreg Hsh Hx Hy Hnx Hny Hpx Hpy Hd Hg.
  pose proof (lookup_lt_Some _ _ _ Hg) as Hlt.
  exists (<[Z.to_nat d:=ceilDivide (ceilDivide g nx) ny]> (shape b)).
  split.
  - unfold get_tile_shape.
    rewrite (lookup_info_some st b info Hreg (getitem_str_not_none _ _ _ _ Hsh)).
    simpl. rewrite Hsh. simpl. rewrite Hx, Hy. simpl.
    rewrite (list_getitem_nonneg _ _ _ Hd Hg). simpl. rewrite Hnx. simpl.
    unfold T_ceildiv at 1. destruct (decide (nx = 0%Z)) as [-> | _]; [lia|]. simpl.
    rewrite (list_setitem_nonneg _ _ _ Hd Hlt). simpl.
    rewrite (list_getitem_nonneg _ d (ceilDivide g nx) Hd)
      by by apply list_lookup_insert_eq.
    simpl. rewrite Hny. simpl.
    unfold T_ceildiv. destruct (decide (ny = 0%Z)) as [-> | _]; [lia|]. simpl.
    rewrite list_setitem_nonneg by (by rewrite ?length_insert).
    by rewrite list_insert_insert_eq.
  - split; [|split].
    + by apply list_lookup_insert_eq.
    + by rewrite length_insert.
    + intros i Hi. by rewrite list_lookup_insert_ne.
Qed.

Lemma tile_shape_same_axis_witness :
  ∃ tile, get_tile_shape Run.st1 Run.h1 Run.C = Ok tile ∧
    tile !! 0 = Some 8%Z ∧ tile !! 1 = Some 64%Z.
Proof.
  destruct (tile_shape_same_axis Run.st1 Run.h1 Run.C (VRef 16) (VRef 17)
              0 2 4 64)
    as (tile & Ht & Hd & _ & Hoth); try reflexivity; try lia.
  exists tile. split; [exact Ht|]. split; [exact Hd|].
  rewrite (Hoth 1) by (simpl; lia). reflexivity.
Defined.

(** ** The mesh descriptor *)

(** C4, as the code has it.  [mesh_tensor_functions] raises its
    [ValueError] exactly when the configuration is not a dictionary with
    the keys "x" and "y"; the values under the keys are not looked at.
    Otherwise the closure holds a copy of the configuration and an empty
    registry. *)
Theorem mesh_shape_checked_for_keys (h : heap) mesh_shape :
  heap_closed h → val_closed h mesh_shape →
  (is_mapping_with h mesh_shape ["x"; "y"] = false →
     mesh_tensor_functions h mesh_shape
     = Some (Err (ValueError MeshShapeMsg), h)) ∧
  (is_mapping_with h mesh_shape ["x"; "y"] = true →
     ∃ st h', mesh_tensor_functions h mesh_shape = Some (Ok st, h') ∧
       veq h' (_mesh_shape st) h mesh_shape ∧
       _mesh_tensor_info st = ∅).
Proof.
  intros Hh Hv. unfold mesh_tensor_functions, is_mapping_with. simpl.
  rewrite andb_true_r, andb_assoc.
  destruct (is_dict h mesh_shape && dict_contains h mesh_shape "x"
            && dict_contains h mesh_shape "y"); split; try done.
  intros _. destruct (py_deepcopy_spec h mesh_shape Hh Hv)
    as (c & h' & -> & _ & _ & _ & Heq & _).
  simpl. by eexists _, _.
Qed.

Lemma mesh_shape_checked_for_keys_witness :
  ∃ st h', mesh_tensor_functions Run.h0 (VRef 0) = Some (Ok st, h') ∧
    veq h' (_mesh_shape st) Run.h0 (VRef 0) ∧ _mesh_tensor_info st = ∅.
Proof.
  apply (mesh_shape_checked_for_keys Run.h0 (VRef 0)).
  - by_compute.
  - by_compute.
  - reflexivity.
Defined.

(** The claim C4 fails: a configuration with the count 0 for "x" and a
    string for "y" is no valid configuration in the spec's words, and
    the closure is built all the same. *)
Lemma mesh_counts_not_checked :
  valid_mesh_config Run.h0 (VRef 5) = false ∧
  ∃ st h', mesh_tensor_functions Run.h0 (VRef 5) = Some (Ok st, h').
Proof. split; [reflexivity|]. vm_compute. by eexists _, _. Qed.

(** ** The registry *)

(** A call on valid entries returns, leaves the caller's objects where
    they were, and registers a copy of the info of the last entry of
    each storage; no other storage is registered. *)
Lemma annotate_valid st (h : heap) items :
  heap_closed h → Forall (λ e, val_closed h e.2) items →
  Forall (λ e, is_mapping_with h e.2 required_keys = true) items →
  ∃ h' reg',
    annotate_mesh_tensor_info st h items
    = Some (Ok (FuncAttr reg'), h',
            {| _mesh_shape := _mesh_shape st; _mesh_tensor_info := reg' |}) ∧
    h `prefix_of` h' ∧
    (∀ pre b info post, items = pre ++ (b, info) :: post →
       unlisted (data b) post →
       ∃ c, reg' !! data b = Some c ∧ c ≠ VNone ∧ veq h' c h info ∧
            isolated (length h) h' c) ∧
    (∀ d, unlisted d items → reg' !! d = None).
Proof.
  intros Hh Hcl Hval.
  assert (Forall (λ e : Buffer * val, invalid_info h e.2 = false) items) as Hvalid.
  { eapply Forall_impl; [exact Hval|]. intros e. simpl.
    rewrite is_mapping_with_required. by destruct (invalid_info h e.2). }
  unfold annotate_mesh_tensor_info.
  destruct (annotate_loop_ok items h ∅ Hh Hcl Hvalid)
    as (h' & reg' & Hl & Hpre & _ & Hreg).
  rewrite Hl. simpl. exists h', reg'. split; [done|]. split; [done|]. split.
  - intros pre b info post -> Hun.
    destruct (Hreg pre b info post eq_refl Hun) as (c & Hc & Heq & Hiso).
    exists c. split; [done|]. split; [|done].
    intros ->. rewrite Forall_forall in Hval.
    assert (is_mapping_with h info required_keys = true) as Hi.
    { apply (Hval (b, info)). apply elem_of_app. right. left. }
    unfold is_mapping_with in Hi. apply andb_true_iff in Hi as [Hi _].
    by rewrite <- (is_dict_veq _ _ _ _ Heq) in Hi.
  - intros d Hun. by rewrite (annotate_loop_unlisted _ _ _ _ _ _ _ Hl Hun).
Qed.

(** C3, as the code has it.  [annotate_mesh_tensor_info] returns when
    every info is a dictionary with the keys "block_shape", "program_id"
    and "sharding", and otherwise raises the [ValueError] that carries
    the info of the first entry that is not. *)
Theorem annotate_checks_three_keys st (h : heap) items :
  heap_closed h → Forall (λ e, val_closed h e.2) items →
  (Forall (λ e, is_mapping_with h e.2 required_keys = true) items →
     ∃ h' st', annotate_mesh_tensor_info st h items
               = Some (Ok (FuncAttr (_mesh_tensor_info st')), h', st')) ∧
  (∀ pre b info post, items = pre ++ (b, info) :: post →
     Forall (λ e, is_mapping_with h e.2 required_keys = true) pre →
     is_mapping_with h info required_keys = false →
     ∃ h' st', annotate_mesh_tensor_info st h items
               = Some (Err (ValueError (InvalidInfoMsg info)), h', st')).
Proof.
  intros Hh Hcl. split.
  - intros Hval. destruct (annotate_valid st h items Hh Hcl Hval)
      as (h' & reg' & Ha & _).
    by exists h', {| _mesh_shape := _mesh_shape st; _mesh_tensor_info := reg' |}.
  - intros pre b info post -> Hpre Hinfo. unfold annotate_mesh_tensor_info.
    apply Forall_app in Hcl as [Hclpre Hclinfo].
    apply Forall_cons in Hclinfo as [Hclinfo _].
    assert (Forall (λ e : Buffer * val, invalid_info h e.2 = false) pre) as Hvalid.
    { eapply Forall_impl; [exact Hpre|]. intros e. simpl.
      rewrite is_mapping_with_required. by destruct (invalid_info h e.2). }
    destruct (annotate_loop_ok pre h ∅ Hh Hclpre Hvalid)
      as (h' & reg' & Hl & Hpre' & _).
    rewrite annotate_loop_app, Hl. simpl.
    rewrite (invalid_info_veq h' h info info) by by apply veq_prefix.
    rewrite is_mapping_with_required in Hinfo.
    destruct (invalid_info h info); [|done]. simpl. by eexists _, _.
Qed.

Lemma annotate_checks_three_keys_witness :
  ∃ h' st', annotate_mesh_tensor_info Run.st1 Run.h1 [(Run.B, VRef 3); (Run.C, VRef 4)]
            = Some (Err (ValueError (InvalidInfoMsg (VRef 4))), h', st').
Proof.
  refine (proj2 (annotate_checks_three_keys Run.st1 Run.h1
                   [(Run.B, VRef 3); (Run.C, VRef 4)] _ _)
            [(Run.B, VRef 3)] Run.C (VRef 4) [] eq_refl _ eq_refl).
  - by_compute.
  - by_compute.
  - by_compute.
Defined.

(** The claim C3 fails: an info with "block_shape" and "sharding" and no
    "program_id" is rejected. *)
Lemma program_id_is_required :
  is_mapping_with Run.h1 (VRef 4) ["block_shape"; "sharding"] = true ∧
  ∃ h' st', annotate_mesh_tensor_info Run.st1 Run.h1 [(Run.C, VRef 4)]
            = Some (Err (ValueError (InvalidInfoMsg (VRef 4))), h', st').
Proof. split; [reflexivity|]. vm_compute. by eexists _, _. Qed.

(** C1, as the code has it.  When [annotate_mesh_tensor_info] raises for
    an invalid entry, the closure is left as the call on the entries
    before that entry leaves it: the registry was emptied first and holds
    the copies of those entries, and nothing of what was registered
    before the call. *)
Theorem annotate_failure_keeps_prefix st (h : heap) items e h' st' :
  annotate_mesh_tensor_info st h items = Some (Err e, h', st') →
  ∃ pre b info post, items = pre ++ (b, info) :: post ∧
    e = ValueError (InvalidInfoMsg info) ∧
    is_mapping_with h' info required_keys = false ∧
    annotate_mesh_tensor_info st h pre
    = Some (Ok (FuncAttr (_mesh_tensor_info st')), h', st') ∧
    ∀ d, unlisted d pre → _mesh_tensor_info st' !! d = None.
Proof.
  unfold annotate_mesh_tensor_info. intros Ha.
  destruct (annotate_loop items h ∅) as [[[r h1] reg] |] eqn:Hl; simpl in Ha; [|done].
  destruct r as [[] | e1]; simpl in Ha; [done|]. injection Ha as <- <- <-.
  destruct (annotate_loop_failed _ _ _ _ _ _ Hl)
    as (pre & b & info & post & -> & -> & Hinv & Hpre).
  exists pre, b, info, post. split; [done|]. split; [done|].
  split; [by rewrite is_mapping_with_required, Hinv|].
  rewrite Hpre. simpl. split; [done|].
  intros d Hd. by rewrite (annotate_loop_unlisted _ _ _ _ _ _ _ Hpre Hd).
Qed.

Lemma annotate_failure_keeps_prefix_witness :
  ∃ pre b info post, Run.items2 = pre ++ (b, info) :: post ∧
    ValueError (InvalidInfoMsg (VRef 4)) = ValueError (InvalidInfoMsg info) ∧
    is_mapping_with Run.h2 info required_keys = false ∧
    annotate_mesh_tensor_info Run.st1 Run.h1 pre
    = Some (Ok (FuncAttr (_mesh_tensor_info Run.st2)), Run.h2, Run.st2) ∧
    ∀ d, unlisted d pre → _mesh_tensor_info Run.st2 !! d = None.
Proof.
  apply (annotate_failure_keeps_prefix Run.st1 Run.h1 Run.items2).
  vm_compute. reflexivity.
Defined.

(** The claim C1 fails: the call on [Run.items2] is rejected for its
    second entry, and the registry is updated in part: it has got the
    first entry of the rejected mapping, and has lost what it held. *)
Lemma annotate_failure_updates_registry :
  annotate_mesh_tensor_info Run.st1 Run.h1 Run.items2
  = Some (Err (ValueError (InvalidInfoMsg (VRef 4))), Run.h2, Run.st2) ∧
  _mesh_tensor_info Run.st1 !! data Run.B = None ∧
  _mesh_tensor_info Run.st2 !! data Run.B = Some (VRef 18) ∧
  _mesh_tensor_info Run.st1 !! data Run.A = Some (VRef 14) ∧
  _mesh_tensor_info Run.st2 !! data Run.A = None.
Proof. vm_compute. repeat split; reflexivity. Qed.

(** C6, as the code has it.  After a call of [annotate_mesh_tensor_info]
    on valid entries, the lookup of a buffer of the mapping whose storage
    no later entry shares returns a copy of its info: equal to the info
    as the caller's heap had it, and out of reach of every object that
    existed before the call.  The lookup of a buffer whose storage is
    that of no entry raises the "not found" [ValueError], whatever the
    registry held before. *)
Theorem annotate_then_lookup st (h : heap) items :
  heap_closed h → Forall (λ e, val_closed h e.2) items →
  Forall (λ e, is_mapping_with h e.2 required_keys = true) items →
  ∃ tok h' st',
    annotate_mesh_tensor_info st h items = Some (Ok tok, h', st') ∧
    h `prefix_of` h' ∧
    (∀ pre b info post, items = pre ++ (b, info) :: post →
       unlisted (data b) post →
       ∃ c, lookup_info st' b = Ok c ∧ veq h' c h info ∧
            isolated (length h) h' c) ∧
    (∀ b, unlisted (data b) items →
       lookup_info st' b = Err (ValueError (NotFoundMsg b))).
Proof.
  intros Hh Hcl Hval.
  destruct (annotate_valid st h items Hh Hcl Hval)
    as (h' & reg' & Ha & Hpre & Hreg & Hnone).
  eexists _, h', _. split; [exact Ha|]. split; [done|]. split.
  - intros pre b info post Hitems Hun.
    destruct (Hreg pre b info post Hitems Hun) as (c & Hc & Hn & Heq & Hiso).
    exists c. split; [|done]. by apply lookup_info_some.
  - intros b Hun. apply lookup_info_none. by apply Hnone.
Qed.

Lemma annotate_then_lookup_witness :
  ∃ tok h' st',
    annotate_mesh_tensor_info Run.st1 Run.h1 [(Run.B, VRef 3)]
    = Some (Ok tok, h', st') ∧
    Run.h1 `prefix_of` h' ∧
    (∀ pre b info post, [(Run.B, VRef 3)] = pre ++ (b, info) :: post →
       unlisted (data b) post →
       ∃ c, lookup_info st' b = Ok c ∧ veq h' c Run.h1 info ∧
            isolated (length Run.h1) h' c) ∧
    (∀ b, unlisted (data b) [(Run.B, VRef 3)] →
       lookup_info st' b = Err (ValueError (NotFoundMsg b))).
Proof.
  apply (annotate_then_lookup Run.st1 Run.h1 [(Run.B, VRef 3)]); by_compute.
Defined.

(** When no two entries of the mapping share their storage, every buffer
    of the mapping gets the copy of its own info. *)
Lemma annotate_then_lookup_distinct st (h : heap) items :
  heap_closed h → Forall (λ e, val_closed h e.2) items →
  Forall (λ e, is_mapping_with h e.2 required_keys = true) items →
  NoDup (data ∘ fst <$> items) →
  ∃ tok h' st',
    annotate_mesh_tensor_info st h items = Some (Ok tok, h', st') ∧
    ∀ b info, (b, info) ∈ items →
      ∃ c, lookup_info st' b = Ok c ∧ veq h' c h info ∧
           isolated (length h) h' c.
Proof.
  intros Hh Hcl Hval Hnd.
  destruct (annotate_valid st h items Hh Hcl Hval)
    as (h' & reg' & Ha & _ & Hreg & _).
  eexists _, h', _. split; [exact Ha|].
  intros b info Hin. apply list_elem_of_split in Hin as (pre & post & ->).
  destruct (Hreg pre b info post eq_refl) as (c & Hc & Hn & Heq & Hiso).
  - rewrite fmap_app, fmap_cons in Hnd.
    apply NoDup_app in Hnd as (_ & _ & Hnd). apply NoDup_cons in Hnd as [Hnot _].
    apply Forall_forall. intros e He Hd. apply Hnot.
    apply list_elem_of_fmap. exists e. split; [|done]. simpl. by rewrite Hd.
  - exists c. split; [|done]. by apply lookup_info_some.
Qed.

(** The claim C6 fails where two buffers share their storage.  With [A]
    and then [A2], a second buffer over the storage of [A], in one
    mapping, the lookup of [A] returns the info given for [A2], whose
    block shape is another; and [A2] is found after a call whose mapping
    has [A] only. *)
Lemma lookup_goes_by_storage :
  getitem_str Run.h0 (VRef 3) "block_shape" = Ok Run.b16 ∧
  Run.block_shape_of (VRef 0) [(Run.A, VRef 3); (Run.A2, VRef 10)] Run.A
  = Some (Ok Run.b32) ∧
  Run.block_shape_of (VRef 0) [(Run.A, VRef 3)] Run.A2 = Some (Ok Run.b16).
Proof. vm_compute. repeat split; reflexivity. Qed.

(** C10.  [annotate_mesh_tensor_info] accepts every mapping whose infos
    have the three keys, whatever is under "sharding"; and when the
    sharding of a registered buffer is no dictionary, or one without "x"
    or without "y", [get_tile_shape] raises a [TypeError] or [KeyError],
    not the "not found" [ValueError]. *)
Theorem sharding_not_validated st (h : heap) items :
  heap_closed h → Forall (λ e, val_closed h e.2) items →
  Forall (λ e, is_mapping_with h e.2 required_keys = true) items →
  ∃ tok h' st',
    annotate_mesh_tensor_info st h items = Some (Ok tok, h', st') ∧
    ∀ pre b info post sharding, items = pre ++ (b, info) :: post →
      unlisted (data b) post →
      getitem_str h info "sharding" = Ok sharding →
      (is_dict h sharding = false →
         get_tile_shape st' h' b = Err TypeError) ∧
      (is_dict h sharding = true →
         dict_contains h sharding "x" = false ∨
         dict_contains h sharding "y" = false →
         get_tile_shape st' h' b = Err KeyError).
Proof.
  intros Hh Hcl Hval.
  destruct (annotate_valid st h items Hh Hcl Hval)
    as (h' & reg' & Ha & _ & Hreg & _).
  eexists _, h', _. split; [exact Ha|].
  intros pre b info post sharding Hitems Hun Hsh.
  destruct (Hreg pre b info post Hitems Hun) as (c & Hc & Hn & Heq & _).
  pose proof (getitem_str_veq _ _ _ _ "sharding" Heq) as Hg. rewrite Hsh in Hg.
  destruct (getitem_str h' c "sharding") as [sharding' |] eqn:Hsh'; [|done].
  unfold get_tile_shape. rewrite (lookup_info_some _ b c) by done.
  simpl. rewrite Hsh'. simpl.
  rewrite <- (is_dict_veq _ _ _ _ Hg).
  rewrite <- !(dict_contains_veq _ _ _ _ _ Hg). split.
  - intros Hnd. by rewrite (getitem_str_not_dict _ _ "x" Hnd).
  - intros Hd [Hx | Hy].
    + by rewrite (getitem_str_missing _ _ "x" Hd Hx).
    + rewrite (getitem_str_missing _ _ "y" Hd Hy).
      destruct (dict_contains h' sharding' "x") eqn:Hx.
      * rewrite dict_contains_getitem in Hx.
        by destruct (getitem_str h' sharding' "x").
      * by rewrite (getitem_str_missing _ _ "x" Hd Hx).
Qed.

Lemma sharding_not_validated_witness :
  ∃ tok h' st',
    annotate_mesh_tensor_info Run.st1 Run.h1 [(Run.A, VRef 7); (Run.B, VRef 9)]
    = Some (Ok tok, h', st') ∧
    get_tile_shape st' h' Run.A = Err KeyError ∧
    get_tile_shape st' h' Run.B = Err TypeError.
Proof.
  destruct (sharding_not_validated Run.st1 Run.h1 [(Run.A, VRef 7); (Run.B, VRef 9)])
    as (tok & h' & st' & Ha & Hbad); [by_compute | by_compute | by_compute |].
  exists tok, h', st'. split; [exact Ha|]. split.
  - refine (proj2 (Hbad [] Run.A (VRef 7) [(Run.B, VRef 9)] (VRef 8) eq_refl _ eq_refl)
              eq_refl (or_intror eq_refl)).
    by_compute.
  - refine (proj1 (Hbad [(Run.A, VRef 7)] Run.B (VRef 9) [] (VStr "xy") eq_refl _ eq_refl)
              eq_refl).
    by_compute.
Defined.

(** ** Block-addressed copy *)

Section copy_claims.
Context {view R : Type}.
Variable buffer_getitem : Buffer → list val → result view.
Variable T_copy : tensor view → tensor view → result R.

(** With a block shape of integers the [try] block comes down to the
    subscript at the element offset, and leaves the heap as it is. *)
Lemma try_slice_ints st (h : heap) buf cs info block_shape bs :
  _mesh_tensor_info st !! data buf = Some info →
  getitem_str h info "block_shape" = Ok block_shape →
  py_iter h block_shape = Ok (VInt <$> bs) →
  try_slice buffer_getitem st h buf cs
  = (buffer_getitem buf (element_offset cs bs), h).
Proof.
  intros Hreg Hbs Hit. unfold try_slice.
  by rewrite Hreg, Hbs, Hit, block_offsets_ints.
Qed.

Lemma resolve_side_view st (h : heap) buf coord t :
  side_view buffer_getitem st h buf coord t →
  resolve buffer_getitem st h buf coord = (Ok t, h).
Proof.
  destruct coord as [cs |]; simpl.
  - intros (info & block_shape & bs & v & Hreg & Hbs & Hit & _ & Hv & ->).
    unfold slice_block. rewrite (try_slice_ints _ _ _ _ _ _ _ Hreg Hbs Hit).
    by rewrite Hv.
  - by intros ->.
Qed.

Lemma resolve_unregistered st (h : heap) buf cs :
  _mesh_tensor_info st !! data buf = None →
  resolve buffer_getitem st h buf (Some cs)
  = (Err (ValueError (NotFoundMsg buf)), h).
Proof.
  intros Hreg. unfold resolve, slice_block, try_slice. by rewrite Hreg.
Qed.

(** C7.  Each side of [mesh_tensor_copy] is passed to [T.copy] as the
    claim says: a side with coordinate [(i, j, ...)], registered with a
    block shape [(b0, b1, ...)] of the same length, as the sub-view that
    subscripting the buffer at [(i*b0, j*b1, ...)] returns; a side with
    no coordinate as the buffer itself, whatever the registry holds (the
    registry is not asked, and nothing is raised for that side). *)
Theorem copy_passes_block_views st (h : heap) src dst src_coord dst_coord s d :
  side_view buffer_getitem st h src src_coord s →
  side_view buffer_getitem st h dst dst_coord d →
  mesh_tensor_copy buffer_getitem T_copy st h src dst src_coord dst_coord
  = (T_copy s d, h).
Proof.
  intros Hs Hd. unfold mesh_tensor_copy.
  by rewrite (resolve_side_view _ _ _ _ _ Hs), (resolve_side_view _ _ _ _ _ Hd).
Qed.

(** C2, as the code has it.  For a side registered with a block shape of
    integers [bs], the coordinates [cs] are paired with [bs] up to the
    shorter of the two: the subscript is taken at an offset of
    [min (length cs) (length bs)] components, and the call returns or
    raises what the subscript and [T.copy] do (a [KeyError] of the
    subscript becoming the "not found" [ValueError]); no length is
    compared. *)
Theorem copy_pairs_up_to_shorter st (h : heap) buf other cs info block_shape bs :
  _mesh_tensor_info st !! data buf = Some info →
  getitem_str h info "block_shape" = Ok block_shape →
  py_iter h block_shape = Ok (VInt <$> bs) →
  length (element_offset cs bs) = length cs `min` length bs ∧
  mesh_tensor_copy buffer_getitem T_copy st h buf other (Some cs) None
  = (match buffer_getitem buf (element_offset cs bs) with
     | Ok v => T_copy (Sliced v) (Whole other)
     | Err KeyError => Err (ValueError (NotFoundMsg buf))
     | Err e => Err e
     end, h) ∧
  mesh_tensor_copy buffer_getitem T_copy st h other buf None (Some cs)
  = (match buffer_getitem buf (element_offset cs bs) with
     | Ok v => T_copy (Whole other) (Sliced v)
     | Err KeyError => Err (ValueError (NotFoundMsg buf))
     | Err e => Err e
     end, h).
Proof.
  intros Hreg Hbs Hit. split; [apply element_offset_length|].
  unfold mesh_tensor_copy, resolve, slice_block.
  rewrite (try_slice_ints _ _ _ _ _ _ _ Hreg Hbs Hit).
  split; by destruct (buffer_getitem buf (element_offset cs bs)) as [v | []].
Qed.

(** C9, as the code has it.  For a buffer [b] with no entry in the
    registry: a copy with a source coordinate for [b] raises the "not
    found" [ValueError] that names [b]; so does a copy with a destination
    coordinate for [b], once the source side has been resolved without
    raising; and so does [get_tile_shape].  The message is the same in
    the three places: it names the buffer, not the side. *)
Theorem unregistered_buffer_not_found st (h : heap) b :
  _mesh_tensor_info st !! data b = None →
  (∀ dst cs dst_coord,
     mesh_tensor_copy buffer_getitem T_copy st h b dst (Some cs) dst_coord
     = (Err (ValueError (NotFoundMsg b)), h)) ∧
  (∀ src src_coord cs s h1,
     resolve buffer_getitem st h src src_coord = (Ok s, h1) →
     mesh_tensor_copy buffer_getitem T_copy st h src b src_coord (Some cs)
     = (Err (ValueError (NotFoundMsg b)), h1)) ∧
  get_tile_shape st h b = Err (ValueError (NotFoundMsg b)).
Proof.
  intros Hreg. split; [|split].
  - intros dst cs dc. unfold mesh_tensor_copy.
    by rewrite resolve_unregistered.
  - intros src sc cs s h1 Hs. unfold mesh_tensor_copy.
    by rewrite Hs, resolve_unregistered.
  - unfold get_tile_shape. by rewrite lookup_info_none.
Qed.
End copy_claims.

Lemma copy_passes_block_views_witness :
  mesh_tensor_copy sym_getitem sym_copy Run.st1 Run.h1 Run.A Run.B
    (Some [2; 3]%Z) None
  = (Ok (Sliced (Run.A, [VInt 32; VInt 48]), Whole Run.B), Run.h1).
Proof.
  apply (copy_passes_block_views sym_getitem sym_copy Run.st1 Run.h1
           Run.A Run.B (Some [2; 3]%Z) None).
  - exists (VRef 14), Run.b16, [16; 16]%Z, (Run.A, [VInt 32; VInt 48]).
    repeat split; reflexivity.
  - reflexivity.
Defined.

Lemma copy_pairs_up_to_shorter_witness :
  length (element_offset [2; 3; 7]%Z [16; 16]%Z) = 3 `min` 2 ∧
  mesh_tensor_copy sym_getitem sym_copy Run.st1 Run.h1 Run.A Run.B
    (Some [2; 3; 7]%Z) None
  = (Ok (Sliced (Run.A, [VInt 32; VInt 48]), Whole Run.B), Run.h1) ∧
  mesh_tensor_copy sym_getitem sym_copy Run.st1 Run.h1 Run.B Run.A
    None (Some [2; 3; 7]%Z)
  = (Ok (Whole Run.B, Sliced (Run.A, [VInt 32; VInt 48])), Run.h1).
Proof.
  apply (copy_pairs_up_to_shorter sym_getitem sym_copy Run.st1 Run.h1
           Run.A Run.B [2; 3; 7]%Z (VRef 14) Run.b16 [16; 16]%Z);
    reflexivity.
Defined.

(** The claim C2 fails: with the block shape (16, 16) recorded for [A],
    the three coordinates (2, 3, 7) raise nothing; the copy is made from
    the offset (32, 48). *)
Lemma longer_coordinate_is_cut :
  getitem_str Run.h1 (VRef 14) "block_shape" = Ok (VTuple [VInt 16; VInt 16]) ∧
  length [2; 3; 7]%Z ≠ length [VInt 16; VInt 16] ∧
  Run.copy_of (VRef 0) Run.items1 Run.A Run.B (Some [2; 3; 7]%Z) None
  = Some (Ok (Sliced (Run.A, [VInt 32; VInt 48]), Whole Run.B)).
Proof. split; [reflexivity|]. split; [simpl; lia|]. vm_compute. reflexivity. Qed.

Lemma unregistered_buffer_not_found_witness :
  (∀ dst cs dst_coord,
     mesh_tensor_copy sym_getitem sym_copy Run.st1 Run.h1 Run.B dst (Some cs) dst_coord
     = (Err (ValueError (NotFoundMsg Run.B)), Run.h1)) ∧
  (∀ src src_coord cs s h1,
     resolve sym_getitem Run.st1 Run.h1 src src_coord = (Ok s, h1) →
     mesh_tensor_copy sym_getitem sym_copy Run.st1 Run.h1 src Run.B src_coord (Some cs)
     = (Err (ValueError (NotFoundMsg Run.B)), h1)) ∧
  get_tile_shape Run.st1 Run.h1 Run.B = Err (ValueError (NotFoundMsg Run.B)).
Proof.
  apply (unregistered_buffer_not_found sym_getitem sym_copy Run.st1 Run.h1 Run.B).
  reflexivity.
Defined.

(** The claim C9 fails in two ways.  The error does not tell the side:
    [B], which is not registered, gives the same error as the source of
    one copy and as the destination of another.  And a destination that
    is not registered goes unnoticed when the source side raises first:
    with a block shape [None] recorded for [A], the copy raises the
    [TypeError] of [zip]. *)
Lemma not_found_names_no_side :
  Run.copy_of (VRef 0) Run.items1 Run.B Run.A (Some [0; 0]%Z) None
  = Some (Err (ValueError (NotFoundMsg Run.B))) ∧
  Run.copy_of (VRef 0) Run.items1 Run.A Run.B None (Some [0; 0]%Z)
  = Some (Err (ValueError (NotFoundMsg Run.B))) ∧
  Run.copy_of (VRef 0) [(Run.A, VRef 6)] Run.A Run.B (Some [0; 0]%Z) (Some [0; 0]%Z)
  = Some (Err TypeError).
Proof. vm_compute. repeat split; reflexivity. Qed.

(** ** The runs of the spec *)

Example run_st1 :
  Run.annotated (VRef 0) Run.items1
  = Some (Ok (FuncAttr (_mesh_tensor_info Run.st1)), Run.h1, Run.st1).
Proof. vm_compute. reflexivity. Qed.

(** Mesh {x: 2, y: 4}, shape (128, 256), sharding {x: 0, y: 1}. *)
Example tile_shape_2x4 :
  Run.tile_of (VRef 0) [(Run.A, VRef 3)] Run.A = Some (Ok [64; 64]%Z).
Proof. vm_compute. reflexivity. Qed.

(** Mesh {x: 3, y: 4}, shape (100, 256), sharding {x: 0, y: 1}. *)
Example tile_shape_3x4 :
  Run.tile_of (VRef 1) [(Run.B, VRef 3)] Run.B = Some (Ok [34; 64]%Z).
Proof. vm_compute. reflexivity. Qed.

(** Block shape (16, 16), source block (2, 3): offset (32, 48). *)
Example offset_2_3 :
  element_offset [2; 3]%Z [16; 16]%Z = [VInt 32; VInt 48].
Proof. reflexivity. Qed.

(** The caller empties its info and sharding dictionaries after the
    call: the registry's copy is what [get_tile_shape] reads. *)
Example caller_mutation_is_not_seen :
  get_tile_shape Run.st1 (<[3:=ODict []]> (<[2:=ODict []]> Run.h1)) Run.A
  = Ok [64; 64]%Z.
Proof. vm_compute. reflexivity. Qed.

(** * Further properties of the four functions *)

(** ** More on reading equal values *)

Lemma veq_int (h1 h2 : heap) v z : veq h1 v h2 (VInt z) → v = VInt z.
Proof.
  intros H. specialize (H 0). by destruct v; simplify_eq/=.
Qed.

Lemma getitem_str_veq_ok (h1 h2 : heap) v1 v2 s w2 :
  veq h1 v1 h2 v2 → getitem_str h2 v2 s = Ok w2 →
  ∃ w1, getitem_str h1 v1 s = Ok w1 ∧ veq h1 w1 h2 w2.
Proof.
  intros H Hg. pose proof (getitem_str_veq _ _ _ _ s H) as Hs. rewrite Hg in Hs.
  destruct (getitem_str h1 v1 s) as [w1 |]; [|done]. by exists w1.
Qed.

Lemma getitem_str_veq_int (h1 h2 : heap) v1 v2 s z :
  veq h1 v1 h2 v2 → getitem_str h2 v2 s = Ok (VInt z) →
  getitem_str h1 v1 s = Ok (VInt z).
Proof.
  intros H Hg. destruct (getitem_str_veq_ok _ _ _ _ _ _ H Hg) as (w1 & -> & Hw).
  by rewrite (veq_int _ _ _ _ Hw).
Qed.

(** Lists that read alike at every depth hold equal values. *)
Lemma Forall2_veq_fmap (h1 h2 : heap) l1 : ∀ l2,
  (∀ n, reify n h1 <$> l1 = reify n h2 <$> l2) →
  Forall2 (λ a b, veq h1 a h2 b) l1 l2.
Proof.
  induction l1 as [| a l1 IH]; intros [| b l2] H;
    try (specialize (H 0); done); constructor.
  - intros n. specialize (H n). by injection H.
  - apply IH. intros n. specialize (H n). by injection H.
Qed.

Lemma Forall2_veq_ints (h1 h2 : heap) l1 bs :
  Forall2 (λ a b, veq h1 a h2 b) l1 (VInt <$> bs) → l1 = VInt <$> bs.
Proof.
  revert l1. induction bs as [| z bs IH]; intros l1 H; simpl in *.
  - by inversion H.
  - inversion H as [| a b l1' l2' Hab Hrest]; subst.
    rewrite (veq_int _ _ _ _ Hab). f_equal. by apply IH.
Qed.

Lemma fmap_keys_eq {A} (f g : val → A) (kvs1 kvs2 : list (key * val)) :
  prod_map id f <$> kvs1 = prod_map id g <$> kvs2 → kvs1.*1 = kvs2.*1.
Proof.
  revert kvs2. induction kvs1 as [| [k1 v1] kvs1 IH]; intros [| [k2 v2] kvs2] H;
    simpl in *; try done.
  injection H as -> _ H. f_equal. by apply IH.
Qed.

(** Equal values iterate alike when the iteration yields integers. *)
Lemma py_iter_veq_ints (h1 h2 : heap) v1 v2 bs :
  veq h1 v1 h2 v2 → py_iter h2 v2 = Ok (VInt <$> bs) →
  py_iter h1 v1 = Ok (VInt <$> bs).
Proof.
  intros H Hit. pose proof (H 1) as H1.
  destruct v2 as [| z2 | s2 | vs2 | l2]; simpl in Hit; try done.
  - destruct v1 as [| | s1 | |l1]; simpl in H1; try done.
    + by injection H1 as ->.
    + by destruct (h1 !! l1) as [[] |].
  - injection Hit as ->.
    destruct v1 as [| | | vs1 |l1]; simpl in H1; try done.
    + simpl. f_equal. apply (Forall2_veq_ints h1 h2), Forall2_veq_fmap.
      intros n. specialize (H n). rewrite !reify_tuple in H. by injection H.
    + by destruct (h1 !! l1) as [[] |].
  - destruct v1 as [| | | |l1]; simpl in H1;
      try (by destruct (h2 !! l2) as [[] |]).
    simpl.
    destruct (h1 !! l1) as [[kvs1 | vs1] |] eqn:E1,
      (h2 !! l2) as [[kvs2 | vs2] |] eqn:E2; try done.
    + injection Hit as Hit. injection H1 as H1.
      apply fmap_keys_eq in H1. rewrite <- Hit. f_equal.
      rewrite !list_fmap_compose. by rewrite H1.
    + injection Hit as ->. f_equal.
      apply (Forall2_veq_ints h1 h2), Forall2_veq_fmap.
      intros n. specialize (H (S n)). rewrite !reify_ref, E1, E2 in H.
      by injection H.
Qed.

(** A copy that is out of reach reads, in every later heap, like the
    value it was copied from. *)
Lemma isolated_reads (n0 : nat) (h h' h2 : heap) c v :
  veq h' c h v → isolated n0 h' c →
  (∀ l, n0 ≤ l < length h' → h2 !! l = h' !! l) → veq h2 c h v.
Proof. intros Heq Hiso Hag. eapply veq_trans; [by apply Hiso | done]. Qed.

(** ** [get_tile_shape]: indices and bounds *)

Lemma list_index_lt n i k : list_index n i = Ok k → k < n.
Proof.
  destruct i as [| z | | |]; simpl; try done.
  repeat case_bool_decide; intros [= <-]; lia.
Qed.

Lemma list_index_negative n (z : Z) :
  (- Z.of_nat n ≤ z < 0)%Z →
  list_index n (VInt z) = Ok (Z.to_nat (Z.of_nat n + z)).
Proof.
  intros Hz. simpl. rewrite bool_decide_eq_false_2 by lia.
  by rewrite bool_decide_eq_true_2 by lia.
Qed.

Lemma list_index_nonneg n (z : Z) :
  (0 ≤ z < Z.of_nat n)%Z → list_index n (VInt z) = Ok (Z.to_nat z).
Proof. intros Hz. simpl. by rewrite bool_decide_eq_true_2 by lia. Qed.

Lemma list_index_out_of_range n (z : Z) :
  (z < - Z.of_nat n ∨ Z.of_nat n ≤ z)%Z → list_index n (VInt z) = Err IndexError.
Proof.
  intros Hz. simpl. rewrite bool_decide_eq_false_2 by lia.
  by rewrite bool_decide_eq_false_2 by lia.
Qed.

(** What [get_tile_shape] returns, when it returns: the shape with two
    of its positions assigned. *)
Lemma get_tile_shape_inv st (h : heap) b tile :
  get_tile_shape st h b = Ok tile →
  ∃ kx ky qx qy, kx < length (shape b) ∧ ky < length (shape b) ∧
    tile = <[ky:=qy]> (<[kx:=qx]> (shape b)).
Proof.
  unfold get_tile_shape, list_getitem, list_setitem.
  destruct (lookup_info st b) as [info |]; simpl; [|done].
  destruct (getitem_str h info "sharding") as [sharding |]; simpl; [|done].
  destruct (getitem_str h sharding "x") as [sx |]; simpl; [|done].
  destruct (getitem_str h sharding "y") as [sy |]; simpl; [|done].
  destruct (list_index (length (shape b)) sx) as [kx |] eqn:Hkx; simpl; [|done].
  destruct (shape b !! kx) as [gx |]; simpl; [|done].
  destruct (getitem_str h (_mesh_shape st) "x") as [nx |]; simpl; [|done].
  destruct (T_ceildiv gx nx) as [qx |]; simpl; [|done].
  rewrite length_insert.
  destruct (list_index (length (shape b)) sy) as [ky |] eqn:Hky; simpl; [|done].
  destruct (<[kx:=qx]> (shape b) !! ky) as [gy |]; simpl; [|done].
  destruct (getitem_str h (_mesh_shape st) "y") as [ny |]; simpl; [|done].
  destruct (T_ceildiv gy ny) as [qy |]; simpl; [|done].
  intros [= <-]. exists kx, ky, qx, qy.
  split; [by eapply list_index_lt|]. split; [by eapply list_index_lt|]. done.
Qed.

(** The run of [get_tile_shape] once the two subscripts are resolved. *)
Lemma get_tile_shape_at st (h : heap) b info sharding sx sy (nx ny : Z) kx ky gx gy :
  _mesh_tensor_info st !! data b = Some info →
  getitem_str h info "sharding" = Ok sharding →
  getitem_str h sharding "x" = Ok sx →
  getitem_str h sharding "y" = Ok sy →
  list_index (length (shape b)) sx = Ok kx →
  list_index (length (shape b)) sy = Ok ky →
  getitem_str h (_mesh_shape st) "x" = Ok (VInt nx) →
  getitem_str h (_mesh_shape st) "y" = Ok (VInt ny) →
  nx ≠ 0%Z → ny ≠ 0%Z →
  shape b !! kx = Some gx →
  <[kx:=ceilDivide gx nx]> (shape b) !! ky = Some gy →
  get_tile_shape st h b
  = Ok (<[ky:=ceilDivide gy ny]> (<[kx:=ceilDivide gx nx]> (shape b))).
Proof.
  intros Hreg Hsh Hx Hy Hkx Hky Hnx Hny Hzx Hzy Hgx Hgy.
  unfold get_tile_shape, list_getitem, list_setitem.
  rewrite (lookup_info_some st b info Hreg (getitem_str_not_none _ _ _ _ Hsh)).
  simpl. rewrite Hsh. simpl. rewrite Hx, Hy. simpl.
  rewrite Hkx. simpl. rewrite Hgx. simpl. rewrite Hnx. simpl.
  destruct (decide (nx = 0%Z)); [done|]. simpl.
  rewrite length_insert, Hky. simpl. rewrite Hgy. simpl. rewrite Hny. simpl.
  by destruct (decide (ny = 0%Z)).
Qed.

(** X1.  Whatever the registry and the mesh hold, a shape that
    [get_tile_shape] returns has the rank of the buffer's shape and
    differs from it in at most two positions. *)
Theorem tile_shape_keeps_rank st (h : heap) b tile :
  get_tile_shape st h b = Ok tile →
  length tile = length (shape b) ∧
  ∃ kx ky, ∀ i, i ≠ kx → i ≠ ky → tile !! i = shape b !! i.
Proof.
  intros (kx & ky & qx & qy & _ & _ & ->)%get_tile_shape_inv. split.
  - by rewrite !length_insert.
  - exists kx, ky. intros i Hx Hy. by rewrite !list_lookup_insert_ne.
Qed.

Lemma tile_shape_keeps_rank_witness :
  length [64; 64]%Z = length (shape Run.A) ∧
  ∃ kx ky, ∀ i, i ≠ kx → i ≠ ky → [64; 64]%Z !! i = shape Run.A !! i.
Proof.
  apply (tile_shape_keeps_rank Run.st1 Run.h1 Run.A). reflexivity.
Defined.

(** X2.  For a buffer of rank 0, [get_tile_shape] returns no shape: it
    raises, since no subscript of an empty list is in range. *)
Theorem tile_shape_needs_a_dimension st (h : heap) b :
  shape b = [] → ∃ e, get_tile_shape st h b = Err e.
Proof.
  intros Hs. destruct (get_tile_shape st h b) as [tile | e] eqn:Ht; [|by exists e].
  apply get_tile_shape_inv in Ht as (kx & _ & _ & _ & Hkx & _).
  rewrite Hs in Hkx. simpl in Hkx. lia.
Qed.

Lemma tile_shape_needs_a_dimension_witness :
  ∃ e, get_tile_shape Edge.st1 Edge.h1 Edge.Z0 = Err e.
Proof.
  apply (tile_shape_needs_a_dimension Edge.st1 Edge.h1 Edge.Z0). reflexivity.
Defined.

(** X3.  A negative index under "x" counts from the end, as a subscript
    of a Python list does: with [-rank <= dx < 0] the dimension
    [rank + dx] is divided by the count of "x".  When "y" names another
    dimension that one is divided by the count of "y"; when "y" names
    the same dimension, by an index that is a different number, the
    dimension is divided twice. *)
Theorem tile_shape_negative_index st (h : heap) b info sharding
    (dx dy nx ny gx gy : Z) :
  _mesh_tensor_info st !! data b = Some info →
  getitem_str h info "sharding" = Ok sharding →
  getitem_str h sharding "x" = Ok (VInt dx) →
  getitem_str h sharding "y" = Ok (VInt dy) →
  getitem_str h (_mesh_shape st) "x" = Ok (VInt nx) →
  getitem_str h (_mesh_shape st) "y" = Ok (VInt ny) →
  (0 < nx)%Z → (0 < ny)%Z →
  (- Z.of_nat (length (shape b)) ≤ dx < 0)%Z → (0 ≤ dy)%Z →
  shape b !! Z.to_nat (Z.of_nat (length (shape b)) + dx) = Some gx →
  shape b !! Z.to_nat dy = Some gy →
  ∃ tile, get_tile_shape st h b = Ok tile ∧
    (dy ≠ Z.of_nat (length (shape b)) + dx →
       tile !! Z.to_nat (Z.of_nat (length (shape b)) + dx)
       = Some (ceilDivide gx nx) ∧
       tile !! Z.to_nat dy = Some (ceilDivide gy ny))%Z ∧
    (dy = Z.of_nat (length (shape b)) + dx →
       tile !! Z.to_nat dy = Some (ceilDivide (ceilDivide gx nx) ny))%Z.
Proof.
  intros Hreg Hsh Hx Hy Hnx Hny Hpx Hpy Hdx Hdy Hgx Hgy.
  set (kx := Z.to_nat (Z.of_nat (length (shape b)) + dx)) in *.
  pose proof (lookup_lt_Some _ _ _ Hgx) as Hltx.
  pose proof (lookup_lt_Some _ _ _ Hgy) as Hlty.
  destruct (decide (Z.to_nat dy = kx)) as [Heq | Hne].
  - exists (<[Z.to_nat dy:=ceilDivide (ceilDivide gx nx) ny]>
              (<[kx:=ceilDivide gx nx]> (shape b))).
    split; [|split].
    + eapply get_tile_shape_at; try done; try lia.
      * by apply list_index_negative.
      * apply list_index_nonneg. lia.
      * rewrite Heq. by apply list_lookup_insert_eq.
    + intros Hd. lia.
    + intros _. apply list_lookup_insert_eq. by rewrite length_insert.
  - exists (<[Z.to_nat dy:=ceilDivide gy ny]> (<[kx:=ceilDivide gx nx]> (shape b))).
    split; [|split].
    + eapply get_tile_shape_at; try done; try lia.
      * by apply list_index_negative.
      * apply list_index_nonneg. lia.
      * by rewrite list_lookup_insert_ne.
    + intros _. split.
      * rewrite list_lookup_insert_ne by done. by apply list_lookup_insert_eq.
      * apply list_lookup_insert_eq. by rewrite length_insert.
    + intros Hd. lia.
Qed.

Lemma tile_shape_negative_index_witness :
  ∃ tile, get_tile_shape Edge.st1 Edge.h1 Edge.Q = Ok tile ∧
    tile !! 1 = Some 32%Z.
Proof.
  destruct (tile_shape_negative_index Edge.st1 Edge.h1 Edge.Q (VRef 14) (VRef 15)
              (-1) 1 2 4 256 256)
    as (tile & Ht & _ & Hsame); try reflexivity; try (simpl; lia).
  exists tile. split; [exact Ht|]. apply Hsame. reflexivity.
Defined.

(** X4.  An index under "x" or "y" that is outside [-rank, rank) makes
    [get_tile_shape] raise the [IndexError] of the list subscript: for
    "x" whatever the mesh holds, for "y" once dimension "x" has been
    divided. *)
Theorem tile_shape_index_out_of_range st (h : heap) b info sharding (dx dy : Z) :
  _mesh_tensor_info st !! data b = Some info →
  getitem_str h info "sharding" = Ok sharding →
  getitem_str h sharding "x" = Ok (VInt dx) →
  getitem_str h sharding "y" = Ok (VInt dy) →
  (dx < - Z.of_nat (length (shape b)) ∨ Z.of_nat (length (shape b)) ≤ dx
   → get_tile_shape st h b = Err IndexError)%Z ∧
  (∀ nx : Z, 0 ≤ dx < Z.of_nat (length (shape b)) →
     getitem_str h (_mesh_shape st) "x" = Ok (VInt nx) → nx ≠ 0 →
     dy < - Z.of_nat (length (shape b)) ∨ Z.of_nat (length (shape b)) ≤ dy →
     get_tile_shape st h b = Err IndexError)%Z.
Proof.
  intros Hreg Hsh Hx Hy.
  assert (lookup_info st b = Ok info) as Hl
    by (apply lookup_info_some; [done | by eapply getitem_str_not_none]).
  split.
  - intros Hdx. unfold get_tile_shape, list_getitem.
    rewrite Hl. simpl. rewrite Hsh. simpl. rewrite Hx, Hy. cbn -[list_index].
    by rewrite (list_index_out_of_range _ _ Hdx).
  - intros nx Hdx Hnx Hz Hdy. unfold get_tile_shape, list_getitem, list_setitem.
    rewrite Hl. simpl. rewrite Hsh. simpl. rewrite Hx, Hy. cbn -[list_index].
    rewrite (list_index_nonneg _ _ Hdx). cbn -[list_index].
    destruct (shape b !! Z.to_nat dx) as [gx |] eqn:Hgx;
      [|apply lookup_ge_None in Hgx; lia].
    cbn -[list_index]. rewrite Hnx. cbn -[list_index].
    destruct (decide (nx = 0%Z)); [done|]. cbn -[list_index].
    rewrite length_insert. by rewrite (list_index_out_of_range _ _ Hdy).
Qed.

Lemma tile_shape_index_out_of_range_witness :
  get_tile_shape Edge.st1 Edge.h1 Edge.R = Err IndexError.
Proof.
  refine (proj1 (tile_shape_index_out_of_range Edge.st1 Edge.h1 Edge.R
                   (VRef 16) (VRef 17) 2 0 eq_refl eq_refl eq_refl eq_refl) _).
  right. simpl. lia.
Defined.

(** X13.  An index under "x" that is no integer, [None] for one, makes
    [get_tile_shape] raise the [TypeError] of the list subscript; so
    does one under "y", once dimension "x" has been divided. *)
Theorem tile_shape_index_not_an_integer st (h : heap) b info sharding sx sy :
  _mesh_tensor_info st !! data b = Some info →
  getitem_str h info "sharding" = Ok sharding →
  getitem_str h sharding "x" = Ok sx →
  getitem_str h sharding "y" = Ok sy →
  ((∀ z, sx ≠ VInt z) → get_tile_shape st h b = Err TypeError) ∧
  (∀ dx nx : Z, sx = VInt dx → (0 ≤ dx < Z.of_nat (length (shape b)))%Z →
     getitem_str h (_mesh_shape st) "x" = Ok (VInt nx) → nx ≠ 0%Z →
     (∀ z, sy ≠ VInt z) → get_tile_shape st h b = Err TypeError).
Proof.
  intros Hreg Hsh Hx Hy.
  assert (lookup_info st b = Ok info) as Hl
    by (apply lookup_info_some; [done | by eapply getitem_str_not_none]).
  assert (∀ n v, (∀ z, v ≠ VInt z) → list_index n v = Err TypeError) as Hty.
  { intros n v Hv. destruct v as [| z | | |]; try done. by destruct (Hv z). }
  split.
  - intros Hsx. unfold get_tile_shape, list_getitem.
    rewrite Hl. simpl. rewrite Hsh. simpl. rewrite Hx, Hy. cbn -[list_index].
    by rewrite Hty.
  - intros dx nx -> Hdx Hnx Hz Hsy. unfold get_tile_shape, list_getitem, list_setitem.
    rewrite Hl. simpl. rewrite Hsh. simpl. rewrite Hx, Hy. cbn -[list_index].
    rewrite (list_index_nonneg _ _ Hdx). cbn -[list_index].
    destruct (shape b !! Z.to_nat dx) as [gx |] eqn:Hgx;
      [|apply lookup_ge_None in Hgx; lia].
    cbn -[list_index]. rewrite Hnx. cbn -[list_index].
    destruct (decide (nx = 0%Z)); [done|]. cbn -[list_index].
    rewrite length_insert. by rewrite Hty.
Qed.

Lemma tile_shape_index_not_an_integer_witness :
  get_tile_shape Edge.st1 Edge.h1 Edge.V = Err TypeError.
Proof.
  refine (proj1 (tile_shape_index_not_an_integer Edge.st1 Edge.h1 Edge.V
                   (VRef 24) (VRef 25) VNone (VInt 0)
                   eq_refl eq_refl eq_refl eq_refl) _).
  discriminate.
Defined.

(** X5.  On two different dimensions and a mesh of positive counts, the
    tiles that [get_tile_shape] reports cover the tensor and no more:
    [nx] tiles of the reported extent reach the global extent of
    dimension [dx], and exceed it by less than [nx]; the same for [dy]. *)
Theorem tiles_cover_the_shape st (h : heap) b info sharding
    (dx dy nx ny gx gy : Z) :
  _mesh_tensor_info st !! data b = Some info →
  getitem_str h info "sharding" = Ok sharding →
  getitem_str h sharding "x" = Ok (VInt dx) →
  getitem_str h sharding "y" = Ok (VInt dy) →
  getitem_str h (_mesh_shape st) "x" = Ok (VInt nx) →
  getitem_str h (_mesh_shape st) "y" = Ok (VInt ny) →
  (0 < nx)%Z → (0 < ny)%Z → (0 ≤ dx)%Z → (0 ≤ dy)%Z → dx ≠ dy →
  shape b !! Z.to_nat dx = Some gx →
  shape b !! Z.to_nat dy = Some gy →
  ∃ tile tx ty, get_tile_shape st h b = Ok tile ∧
    tile !! Z.to_nat dx = Some tx ∧ tile !! Z.to_nat dy = Some ty ∧
    (gx ≤ tx * nx < gx + nx)%Z ∧ (gy ≤ ty * ny < gy + ny)%Z.
Proof.
  intros Hreg Hsh Hx Hy Hnx Hny Hpx Hpy Hdx Hdy Hne Hgx Hgy.
  assert (Z.to_nat dx ≠ Z.to_nat dy) as Hne' by lia.
  pose proof (lookup_lt_Some _ _ _ Hgx) as Hltx.
  pose proof (lookup_lt_Some _ _ _ Hgy) as Hlty.
  exists (<[Z.to_nat dy:=ceilDivide gy ny]> (<[Z.to_nat dx:=ceilDivide gx nx]> (shape b))),
    (ceilDivide gx nx), (ceilDivide gy ny).
  split; [|split; [|split; [|split]]].
  - eapply get_tile_shape_at; try done; try lia.
    + apply list_index_nonneg. lia.
    + apply list_index_nonneg. lia.
    + by rewrite list_lookup_insert_ne.
  - rewrite list_lookup_insert_ne by done. by apply list_lookup_insert_eq.
  - apply list_lookup_insert_eq. by rewrite length_insert.
  - pose proof (ceilDivide_is_ceiling gx nx Hpx). lia.
  - pose proof (ceilDivide_is_ceiling gy ny Hpy). lia.
Qed.

Lemma tiles_cover_the_shape_witness :
  ∃ tile tx ty, get_tile_shape Run.st1 Run.h1 Run.A = Ok tile ∧
    tile !! 0 = Some tx ∧ tile !! 1 = Some ty ∧
    (128 ≤ tx * 2 < 128 + 2)%Z ∧ (256 ≤ ty * 4 < 256 + 4)%Z.
Proof.
  apply (tiles_cover_the_shape Run.st1 Run.h1 Run.A (VRef 14) (VRef 15) 0 1 2 4 128 256);
    try reflexivity; lia.
Defined.

(** ** [annotate_mesh_tensor_info]: what every call keeps *)

(** The loop returns on every heap without dangling references, extends
    the heap, and keeps a registry of closed, valid infos. *)
Lemma annotate_loop_total items : ∀ (h : heap) (reg : gmap nat val),
  heap_closed h → Forall (λ e, val_closed h e.2) items →
  (∀ d v, reg !! d = Some v → val_closed h v ∧ invalid_info h v = false) →
  ∃ r h' reg', annotate_loop items h reg = Some (r, h', reg') ∧
    h `prefix_of` h' ∧ heap_closed h' ∧
    (∀ d v, reg' !! d = Some v → val_closed h' v ∧ invalid_info h' v = false) ∧
    (r = Ok () ∨
     ∃ b info, (b, info) ∈ items ∧ r = Err (ValueError (InvalidInfoMsg info))).
Proof.
  induction items as [| [b info] items IH]; intros h reg Hh Hcl Hreg; simpl.
  - exists (Ok ()), h, reg. split; [done|]. split; [done|]. split; [done|].
    split; [done|]. by left.
  - apply Forall_cons in Hcl as [Hinfo Hcl]. simpl in Hinfo.
    destruct (invalid_info h info) eqn:Hinv.
    { eexists _, h, reg. split; [done|]. split; [done|]. split; [done|].
      split; [done|]. right. exists b, info. split; [left | done]. }
    destruct (py_deepcopy_spec h info Hh Hinfo)
      as (c & h1 & -> & Hpre1 & Hh1 & Hc1 & Heq1 & _). simpl.
    assert (∀ v, val_closed h v → val_closed h1 v) as Hmono.
    { intros v Hvc r Hr. apply prefix_length in Hpre1. specialize (Hvc r Hr). lia. }
    destruct (IH h1 (<[data b:=c]> reg) Hh1) as (r & h' & reg' & Hl & Hpre & Hh' & Hreg' & Hr).
    { eapply Forall_impl; [exact Hcl|]. intros e He. by apply Hmono. }
    { intros d v. rewrite lookup_insert. case_decide as Hd.
      - intros [= <-]. split; [done|].
        by rewrite (invalid_info_veq _ _ _ _ Heq1).
      - intros Hv. destruct (Hreg d v Hv) as [Hvc Hvi]. split; [by apply Hmono|].
        rewrite <- Hvi. apply invalid_info_veq. by apply veq_prefix. }
    exists r, h', reg'. split; [done|]. split; [by etrans|]. split; [done|].
    split; [done|]. destruct Hr as [-> | (b' & info' & Hin & ->)]; [by left|].
    right. exists b', info'. split; [by right | done].
Qed.



(** X7.  After every call of [annotate_mesh_tensor_info], returned or
    raised, each info in the registry is a dictionary with the keys
    "block_shape", "program_id" and "sharding", and holds no dangling
    reference. *)
Theorem registry_holds_checked_infos st (h : heap) items r h' st' :
  heap_closed h → Forall (λ e, val_closed h e.2) items →
  annotate_mesh_tensor_info st h items = Some (r, h', st') →
  ∀ d v, _mesh_tensor_info st' !! d = Some v →
    is_mapping_with h' v required_keys = true ∧ val_closed h' v.
Proof.
  intros Hh Hcl. unfold annotate_mesh_tensor_info.
  destruct (annotate_loop_total items h ∅ Hh Hcl)
    as (r0 & h0 & reg' & -> & _ & _ & Hreg & _); [done|].
  simpl. intros [= <- <- <-] d v Hv. simpl in Hv.
  destruct (Hreg d v Hv) as [Hvc Hvi]. split; [|done].
  by rewrite is_mapping_with_required, Hvi.
Qed.

Lemma registry_holds_checked_infos_witness :
  is_mapping_with Run.h2 (VRef 18) required_keys = true ∧
  val_closed Run.h2 (VRef 18).
Proof.
  apply (registry_holds_checked_infos Run.st1 Run.h1 Run.items2
           (Err (ValueError (InvalidInfoMsg (VRef 4)))) Run.h2 Run.st2)
    with (d := data Run.B);
    [by_compute | by_compute | vm_compute; reflexivity | reflexivity].
Defined.

(** ** From construction to use *)

(** Building the closure over a dictionary with the two keys. *)
Lemma mesh_tensor_functions_ok (h : heap) cfg :
  heap_closed h → val_closed h cfg →
  is_mapping_with h cfg ["x"; "y"] = true →
  ∃ m h1,
    mesh_tensor_functions h cfg
    = Some (Ok {| _mesh_shape := m; _mesh_tensor_info := ∅ |}, h1) ∧
    h `prefix_of` h1 ∧ heap_closed h1 ∧
    veq h1 m h cfg ∧ isolated (length h) h1 m.
Proof.
  intros Hh Hv. unfold mesh_tensor_functions, is_mapping_with. simpl.
  rewrite andb_true_r, andb_assoc. intros ->.
  destruct (py_deepcopy_spec h cfg Hh Hv)
    as (c & h' & -> & Hpre & Hh' & _ & Heq & Hiso).
  simpl. by exists c, h'.
Qed.

Lemma getitem_str_is_mapping (h : heap) v s w :
  getitem_str h v s = Ok w → is_dict h v = true ∧ dict_contains h v s = true.
Proof.
  intros Hg. rewrite dict_contains_getitem, Hg. split; [|done].
  destruct v as [| | | | l]; simpl in *; try done.
  by destruct (h !! l) as [[] |].
Qed.

(** Entries that are closed and valid stay so when the heap grows. *)
Lemma valid_entries_prefix (h h1 : heap) (items : list (Buffer * val)) :
  h `prefix_of` h1 → heap_closed h →
  Forall (λ e, val_closed h e.2) items →
  Forall (λ e, is_mapping_with h e.2 required_keys = true) items →
  Forall (λ e, val_closed h1 e.2) items ∧
  Forall (λ e, is_mapping_with h1 e.2 required_keys = true) items.
Proof.
  intros Hpre Hh Hcl Hval. rewrite Forall_forall in Hcl, Hval. split.
  - apply Forall_forall. intros e He r Hr.
    apply prefix_length in Hpre. specialize (Hcl e He r Hr). lia.
  - apply Forall_forall. intros e He.
    rewrite <- (Hval e He), !is_mapping_with_required. f_equal.
    apply invalid_info_veq, veq_prefix; auto.
Qed.

(** X8.  The closure reads its mesh counts from a copy of its own: the
    integer that the configuration held under a key when the closure was
    built is what the closure's mesh shape holds under that key in every
    later heap, whatever has been done since to the objects that existed
    before the call. *)
Theorem mesh_counts_are_private (h : heap) cfg :
  heap_closed h → val_closed h cfg →
  is_mapping_with h cfg ["x"; "y"] = true →
  ∃ st h1, mesh_tensor_functions h cfg = Some (Ok st, h1) ∧
    h `prefix_of` h1 ∧
    ∀ (h2 : heap) s n,
      (∀ l, length h ≤ l < length h1 → h2 !! l = h1 !! l) →
      getitem_str h cfg s = Ok (VInt n) →
      getitem_str h2 (_mesh_shape st) s = Ok (VInt n).
Proof.
  intros Hh Hv Hm.
  destruct (mesh_tensor_functions_ok h cfg Hh Hv Hm)
    as (m & h1 & Hf & Hpre & _ & Heq & Hiso).
  eexists _, h1. split; [exact Hf|]. split; [done|].
  intros h2 s n Hag Hg. simpl.
  apply (getitem_str_veq_int h2 h m cfg); [|done].
  by eapply isolated_reads.
Qed.

Lemma mesh_counts_are_private_witness :
  ∃ st h1, mesh_tensor_functions Run.h0 (VRef 0) = Some (Ok st, h1) ∧
    Run.h0 `prefix_of` h1 ∧
    ∀ (h2 : heap) s n,
      (∀ l, length Run.h0 ≤ l < length h1 → h2 !! l = h1 !! l) →
      getitem_str Run.h0 (VRef 0) s = Ok (VInt n) →
      getitem_str h2 (_mesh_shape st) s = Ok (VInt n).
Proof.
  apply (mesh_counts_are_private Run.h0 (VRef 0)); [by_compute | by_compute | reflexivity].
Defined.

(** X9.  From the caller's dictionaries to the tile shape.  Build the
    closure over a mesh of positive counts, register entries of which
    [(b, info)] is the last for its storage, with a sharding on two
    different dimensions: whatever the caller then does to the objects
    it had, [get_tile_shape(b)] returns the shape with those two
    dimensions divided by the counts, rounded up. *)
Theorem tile_shape_from_annotation (h : heap) cfg items pre b info post sharding
    (dx dy nx ny gx gy : Z) :
  heap_closed h → val_closed h cfg →
  Forall (λ e, val_closed h e.2) items →
  Forall (λ e, is_mapping_with h e.2 required_keys = true) items →
  getitem_str h cfg "x" = Ok (VInt nx) →
  getitem_str h cfg "y" = Ok (VInt ny) →
  (0 < nx)%Z → (0 < ny)%Z →
  items = pre ++ (b, info) :: post → unlisted (data b) post →
  getitem_str h info "sharding" = Ok sharding →
  getitem_str h sharding "x" = Ok (VInt dx) →
  getitem_str h sharding "y" = Ok (VInt dy) →
  (0 ≤ dx)%Z → (0 ≤ dy)%Z → dx ≠ dy →
  shape b !! Z.to_nat dx = Some gx →
  shape b !! Z.to_nat dy = Some gy →
  ∃ st h1 tok h2 st2,
    mesh_tensor_functions h cfg = Some (Ok st, h1) ∧
    annotate_mesh_tensor_info st h1 items = Some (Ok tok, h2, st2) ∧
    ∀ h3 : heap, (∀ l, length h ≤ l < length h2 → h3 !! l = h2 !! l) →
      get_tile_shape st2 h3 b
      = Ok (<[Z.to_nat dy:=ceilDivide gy ny]>
              (<[Z.to_nat dx:=ceilDivide gx nx]> (shape b))).
Proof.
  intros Hh Hcfg Hcl Hval Hnx Hny Hpx Hpy Hitems Hun Hsh Hx Hy Hdx Hdy Hne Hgx Hgy.
  destruct (mesh_tensor_functions_ok h cfg Hh Hcfg)
    as (m & h1 & Hf & Hpre1 & Hh1 & Heqm & Hisom).
  { unfold is_mapping_with. simpl.
    destruct (getitem_str_is_mapping _ _ _ _ Hnx) as [-> ->].
    by destruct (getitem_str_is_mapping _ _ _ _ Hny) as [_ ->]. }
  destruct (valid_entries_prefix h h1 items Hpre1 Hh Hcl Hval) as [Hcl1 Hval1].
  destruct (annotate_valid {| _mesh_shape := m; _mesh_tensor_info := ∅ |}
              h1 items Hh1 Hcl1 Hval1)
    as (h2 & reg' & Ha & Hpre2 & Hreg & _).
  eexists _, h1, _, h2, _. split; [exact Hf|]. split; [exact Ha|].
  intros h3 Hag.
  destruct (Hreg pre b info post Hitems Hun) as (c & Hc & Hn & Heqc & Hisoc).
  pose proof (prefix_length _ _ Hpre1) as Hlen1.
  pose proof (prefix_length _ _ Hpre2) as Hlen2.
  assert (val_closed h info) as Hinfo.
  { rewrite Forall_forall in Hcl. apply (Hcl (b, info)). rewrite Hitems.
    apply elem_of_app. right. left. }
  assert (veq h3 c h info) as Hc3.
  { eapply veq_trans; [|by apply veq_prefix].
    eapply isolated_reads; [done | done |]. intros l Hl. apply Hag. lia. }
  assert (veq h3 m h cfg) as Hm3.
  { eapply isolated_reads; [done | done |]. intros l Hl.
    rewrite Hag by lia. symmetry. apply prefix_lookup_lt; [lia | done]. }
  destruct (getitem_str_veq_ok _ _ _ _ _ _ Hc3 Hsh) as (sharding' & Hsh' & Hsh3).
  pose proof (lookup_lt_Some _ _ _ Hgx) as Hltx.
  pose proof (lookup_lt_Some _ _ _ Hgy) as Hlty.
  eapply (get_tile_shape_at _ h3 b c sharding'); simpl; try done; try lia.
  - by apply (getitem_str_veq_int h3 h sharding' sharding).
  - by apply (getitem_str_veq_int h3 h sharding' sharding).
  - apply list_index_nonneg. lia.
  - apply list_index_nonneg. lia.
  - by apply (getitem_str_veq_int h3 h m cfg).
  - by apply (getitem_str_veq_int h3 h m cfg).
  - rewrite list_lookup_insert_ne by lia. done.
Qed.

Lemma tile_shape_from_annotation_witness :
  ∃ st h1 tok h2 st2,
    mesh_tensor_functions Run.h0 (VRef 1) = Some (Ok st, h1) ∧
    annotate_mesh_tensor_info st h1 [(Run.B, VRef 3)] = Some (Ok tok, h2, st2) ∧
    ∀ h3 : heap, (∀ l, length Run.h0 ≤ l < length h2 → h3 !! l = h2 !! l) →
      get_tile_shape st2 h3 Run.B = Ok [34; 64]%Z.
Proof.
  apply (tile_shape_from_annotation Run.h0 (VRef 1) [(Run.B, VRef 3)]
           [] Run.B (VRef 3) [] (VRef 2) 0 1 3 4 100 256);
    try reflexivity; try lia; by_compute.
Defined.

(** ** [mesh_tensor_copy]: block shapes *)

Section copy_more.
Context {view R : Type}.
Variable buffer_getitem : Buffer → list val → result view.
Variable T_copy : tensor view → tensor view → result R.

(** X10.  From the caller's dictionaries to the copy.  After a call of
    [annotate_mesh_tensor_info] in which [(b, info)] is the last entry
    for its storage and the block shape of [info] iterates to the
    integers [bs], a copy with block coordinate [cs] for [b] takes the
    subscript of [b] at the products of [cs] and [bs], whatever the
    caller has done since to the objects it had, and leaves the heap as
    it is. *)
Theorem copy_from_annotation st (h : heap) items pre b info post block_shape bs :
  heap_closed h → Forall (λ e, val_closed h e.2) items →
  Forall (λ e, is_mapping_with h e.2 required_keys = true) items →
  items = pre ++ (b, info) :: post → unlisted (data b) post →
  getitem_str h info "block_shape" = Ok block_shape →
  py_iter h block_shape = Ok (VInt <$> bs) →
  ∃ tok h' st',
    annotate_mesh_tensor_info st h items = Some (Ok tok, h', st') ∧
    ∀ (h3 : heap) other cs,
      (∀ l, length h ≤ l < length h' → h3 !! l = h' !! l) →
      mesh_tensor_copy buffer_getitem T_copy st' h3 b other (Some cs) None
      = (match buffer_getitem b (element_offset cs bs) with
         | Ok v => T_copy (Sliced v) (Whole other)
         | Err KeyError => Err (ValueError (NotFoundMsg b))
         | Err e => Err e
         end, h3).
Proof.
  intros Hh Hcl Hval Hitems Hun Hbs Hit.
  destruct (annotate_valid st h items Hh Hcl Hval)
    as (h' & reg' & Ha & _ & Hreg & _).
  eexists _, h', _. split; [exact Ha|]. intros h3 other cs Hag.
  destruct (Hreg pre b info post Hitems Hun) as (c & Hc & Hn & Heqc & Hisoc).
  assert (veq h3 c h info) as Hc3 by by eapply isolated_reads.
  destruct (getitem_str_veq_ok _ _ _ _ _ _ Hc3 Hbs) as (bs' & Hbs' & Hbs3).
  pose proof (py_iter_veq_ints _ _ _ _ _ Hbs3 Hit) as Hit'.
  unfold mesh_tensor_copy, resolve, slice_block.
  erewrite try_slice_ints; [| exact Hc | exact Hbs' | exact Hit'].
  by destruct (buffer_getitem b (element_offset cs bs)) as [v | []].
Qed.

(** X11.  A recorded block shape that cannot be iterated, [None] or an
    integer, makes every copy with a coordinate for that buffer raise
    the [TypeError] of [zip], on either side and whatever the
    coordinate; the [except KeyError] clause does not take it. *)
Theorem copy_block_shape_not_iterable st (h : heap) b info block_shape :
  _mesh_tensor_info st !! data b = Some info →
  getitem_str h info "block_shape" = Ok block_shape →
  block_shape = VNone ∨ (∃ z, block_shape = VInt z) →
  (∀ other cs dst_coord,
     mesh_tensor_copy buffer_getitem T_copy st h b other (Some cs) dst_coord
     = (Err TypeError, h)) ∧
  (∀ other cs,
     mesh_tensor_copy buffer_getitem T_copy st h other b None (Some cs)
     = (Err TypeError, h)).
Proof.
  intros Hreg Hbs Hshape.
  assert (∀ cs, resolve buffer_getitem st h b (Some cs) = (Err TypeError, h)) as Hres.
  { intros cs. unfold resolve, slice_block, try_slice. rewrite Hreg, Hbs.
    by destruct Hshape as [-> | [z ->]]. }
  split.
  - intros other cs dc. unfold mesh_tensor_copy. by rewrite Hres.
  - intros other cs. unfold mesh_tensor_copy.
    replace (resolve buffer_getitem st h other None)
      with (@Ok (tensor view) (Whole other), h) by done.
    by rewrite Hres.
Qed.

(** X12.  A closure that has just been built knows no buffer: until the
    first call of [annotate_mesh_tensor_info], [get_tile_shape] and
    every copy with a source coordinate raise the "not found"
    [ValueError], in every heap. *)
Theorem new_closure_finds_nothing (h : heap) cfg st h1 :
  mesh_tensor_functions h cfg = Some (Ok st, h1) →
  ∀ (h2 : heap) b,
    get_tile_shape st h2 b = Err (ValueError (NotFoundMsg b)) ∧
    ∀ other cs dst_coord,
      mesh_tensor_copy buffer_getitem T_copy st h2 b other (Some cs) dst_coord
      = (Err (ValueError (NotFoundMsg b)), h2).
Proof.
  unfold mesh_tensor_functions. intros Hf.
  destruct (is_dict h cfg && dict_contains h cfg "x" && dict_contains h cfg "y");
    [|done].
  destruct (py_deepcopy h cfg) as [[c h'] |]; simpl in Hf; [|done].
  injection Hf as <- <-. intros h2 b. split.
  - unfold get_tile_shape. by rewrite lookup_info_none.
  - intros other cs dc. unfold mesh_tensor_copy.
    by rewrite resolve_unregistered.
Qed.
End copy_more.

Lemma copy_from_annotation_witness :
  ∃ tok h' st',
    annotate_mesh_tensor_info Run.st1 Run.h1 [(Run.B, VRef 3)]
    = Some (Ok tok, h', st') ∧
    ∀ (h3 : heap) other cs,
      (∀ l, length Run.h1 ≤ l < length h' → h3 !! l = h' !! l) →
      mesh_tensor_copy sym_getitem sym_copy st' h3 Run.B other (Some cs) None
      = (match sym_getitem Run.B (element_offset cs [16; 16]%Z) with
         | Ok v => sym_copy (Sliced v) (Whole other)
         | Err KeyError => Err (ValueError (NotFoundMsg Run.B))
         | Err e => Err e
         end, h3).
Proof.
  apply (copy_from_annotation sym_getitem sym_copy Run.st1 Run.h1 [(Run.B, VRef 3)]
           [] Run.B (VRef 3) [] Run.b16 [16; 16]%Z);
    try reflexivity; by_compute.
Defined.

Lemma copy_block_shape_not_iterable_witness :
  (∀ other cs dst_coord,
     mesh_tensor_copy sym_getitem sym_copy Edge.st1 Edge.h1 Edge.S other (Some cs) dst_coord
     = (Err TypeError, Edge.h1)) ∧
  (∀ other cs,
     mesh_tensor_copy sym_getitem sym_copy Edge.st1 Edge.h1 other Edge.S None (Some cs)
     = (Err TypeError, Edge.h1)).
Proof.
  apply (copy_block_shape_not_iterable sym_getitem sym_copy Edge.st1 Edge.h1
           Edge.S (VRef 18) VNone); [reflexivity | reflexivity | by left].
Defined.

Lemma new_closure_finds_nothing_witness :
  get_tile_shape {| _mesh_shape := VRef 13; _mesh_tensor_info := ∅ |} Run.h1 Run.A
  = Err (ValueError (NotFoundMsg Run.A)) ∧
  ∀ other cs dst_coord,
    mesh_tensor_copy sym_getitem sym_copy
      {| _mesh_shape := VRef 13; _mesh_tensor_info := ∅ |} Run.h1 Run.A other
      (Some cs) dst_coord
    = (Err (ValueError (NotFoundMsg Run.A)), Run.h1).
Proof.
  apply (new_closure_finds_nothing sym_getitem sym_copy Run.h0 (VRef 0)
           {| _mesh_shape := VRef 13; _mesh_tensor_info := ∅ |}
           (Run.h0 ++ [Run.mesh24])).
  vm_compute. reflexivity.
Defined.
